(** * AgenticBugFix UI: the streaming session engine

    A shallow embedding of [src/UI/src/app/services/ai-stream.service.ts]
    (the [AiStreamService] connection manager and dispatcher) and of the
    [App] component that owns the conversation's message list, followed by
    the properties of the specification that concern them.

    Conventions of the embedding:
    - a JavaScript array is a [list]; [arr[i] = x] with [i] in range is
      stdpp's [<[i:=x]>], [arr[i]] is [arr !! i];
    - [findIndex] returns [None] where JavaScript returns [-1];
    - an optional field ([status?: ...]) is an [option]; a test such as
      [!message.finished] goes through [truthy]; a response id, which the
      code compares with [===], keeps [undefined] and [null] apart;
    - [Date.now()], [crypto.randomUUID()] and the trimmed value of the
      composer form control are inputs of the operation that reads them;
    - the calls made on [AiStreamService] by the component are recorded, in
      order, in the [sent] field of the component state. *)

From Stdlib Require Import ZArith String Ascii List Bool Lia.
From stdpp Require Import base list.
Import ListNotations.

Local Open Scope string_scope.
Local Open Scope Z_scope.
Local Open Scope nat_scope.
Local Open Scope list_scope.

(** ** models/agent-stream-event.model.ts *)

Inductive AgentResponseStatus : Type :=
  | queued
  | thinking
  | streaming
  | completed
  | celebrating
  | error
  | stopped.

(** The seven members of [AgentStreamEventType], as the strings they are. *)
Definition AgentStreamEventType : list string :=
  [ "response-start"; "response-token"; "response-status"; "response-end";
    "response-error"; "response-stop"; "response-celebration" ].

(** A response id as it can sit in a decoded frame: absent ([undefined]),
    [null], or a string.  The handler tells the three apart with [===] and
    treats the first two alike with [??] and in truth tests. *)
Inductive ResponseId : Type :=
  | IdUndefined
  | IdNull
  | Id (s : string).

(** [AgentStreamEvent].  [type] is kept as the string found on the wire: the
    dispatcher forwards payloads through an unchecked cast, and the handler
    compares strings.  [responseId] is optional because the handler itself
    treats it so ([event.responseId ?? ...]).  [metadata] is never read. *)
Module Ev.
Record AgentStreamEvent : Type := mk {
  conversationId : string;
  responseId : ResponseId;
  type : string;
  status : option AgentResponseStatus;
  token : option string;
  tokens : option (list string);
  content : option string
}.
End Ev.
Abbreviation AgentStreamEvent := Ev.AgentStreamEvent.

Inductive AgentSocketCommand : Type :=
  | UserMessage (conversationId prompt : string)
  | StopResponse (conversationId : string) (responseId : ResponseId)
                 (reason : option string)
  | NewSession (conversationId : string).

(** ** JavaScript helpers *)

Definition truthy (b : option bool) : bool :=
  match b with Some true => true | _ => false end.

(** Truthiness of a response id: [undefined], [null] and [''] are falsy. *)
Definition truthyString (s : ResponseId) : bool :=
  match s with
  | Id s => negb (String.eqb s "")
  | IdUndefined | IdNull => false
  end.

(** [a === b] on response ids: [undefined] and [null] are equal to
    themselves only. *)
Definition strictEq (a b : ResponseId) : bool :=
  match a, b with
  | Id x, Id y => String.eqb x y
  | IdUndefined, IdUndefined => true
  | IdNull, IdNull => true
  | _, _ => false
  end.

(** [a ?? b] on a response id. *)
Definition idOrElse (a : ResponseId) (b : string) : string :=
  match a with
  | Id s => s
  | IdUndefined | IdNull => b
  end.

(** [a ?? b]. *)
Definition orElse {A : Type} (a : option A) (b : A) : A :=
  match a with Some x => x | None => b end.

Fixpoint findIndex {A : Type} (p : A -> bool) (l : list A) : option nat :=
  match l with
  | [] => None
  | x :: r => if p x then Some 0 else option_map S (findIndex p r)
  end.

Definition isActiveStatus (s : AgentResponseStatus) : bool :=
  match s with thinking | streaming => true | _ => false end.

Definition statusIs (s : option AgentResponseStatus) (t : AgentResponseStatus)
  : bool :=
  match s, t with
  | Some queued, queued | Some thinking, thinking | Some streaming, streaming
  | Some completed, completed | Some celebrating, celebrating
  | Some error, error | Some stopped, stopped => true
  | _, _ => false
  end.

(** ** services/ai-stream.service.ts *)

Module AiStreamService.

Inductive AgentConnectionStatus : Type :=
  | disconnected | connecting | connected | reconnecting.

(** An object handed to [dispatch] either lacks the [type] key, or holds a
    string there, or holds something that is not a string. *)
Inductive TypeField : Type :=
  | TypeMissing
  | TypeString (s : string)
  | TypeOther.

Record Payload : Type := {
  p_type : TypeField;
  p_conversationId : string;
  p_responseId : ResponseId;
  p_status : option AgentResponseStatus;
  p_token : option string;
  p_tokens : option (list string);
  p_content : option string
}.

(** [payload as AgentStreamEvent], for a payload whose type is [s]. *)
Definition asEvent (p : Payload) (s : string) : AgentStreamEvent :=
  Ev.mk (p_conversationId p) (p_responseId p) s (p_status p) (p_token p)
        (p_tokens p) (p_content p).

(** What the deserializer can hand to [dispatch]: [null] (also its answer to
    a frame that does not parse), or whatever [JSON.parse] returns: a
    boolean, a number (only whether it is zero matters here), a string, or an
    object (an array is an object without a [type] key). *)
Inductive Decoded : Type :=
  | DecodedNull
  | DecodedBoolean (b : bool)
  | DecodedNumber (isZero : bool)
  | DecodedString (s : string)
  | DecodedObject (p : Payload).

(** What a call of [dispatch] comes to: an event pushed on [eventsSubject],
    a silent return, or the [TypeError] of [in] applied to a primitive. *)
Inductive Dispatched : Type :=
  | Emitted (ev : AgentStreamEvent)
  | Dropped
  | ThrowsTypeError.

(** [!payload]. *)
Definition isFalsy (payload : Decoded) : bool :=
  match payload with
  | DecodedNull => true
  | DecodedBoolean b => negb b
  | DecodedNumber isZero => isZero
  | DecodedString s => String.eqb s ""
  | DecodedObject _ => false
  end.

Definition isObject (payload : Decoded) : bool :=
  match payload with DecodedObject _ => true | _ => false end.

Definition dispatch (payload : Decoded) : Dispatched :=
  if isFalsy payload then Dropped
  else
    match payload with
    | DecodedObject p =>
        match p_type p with
        | TypeMissing => Dropped
        | TypeString s =>
            if String.prefix "response" s then Emitted (asEvent p s)
            else Dropped
        | TypeOther => Dropped
        end
    | _ => ThrowsTypeError
    end.

(** The fields of the service that the connection life cycle touches.
    [socket] tells whether [socket$] is defined, [reconnectTimer] whether
    a timeout is pending, [opened] counts the sockets created so far. *)
Record Service : Type := {
  socket : bool;
  connectionState : AgentConnectionStatus;
  reconnectTimer : bool;
  manualClose : bool;
  opened : nat
}.

Section Lifecycle.
(** [isPlatformBrowser(this.platformId)] and whether
    [environment.agentSocketUrl] is configured. *)
Variable isPlatformBrowser : bool.
Variable agentSocketUrl : bool.

Definition initial : Service :=
  {| socket := false; connectionState := disconnected;
     reconnectTimer := false; manualClose := false; opened := 0 |}.

Definition disposeSocket (s : Service) : Service :=
  {| socket := false;
     connectionState := connectionState s;
     reconnectTimer := false;
     manualClose := manualClose s;
     opened := opened s |}.

Definition connect (s : Service) : Service :=
  if negb agentSocketUrl then s
  else
    let reconnecting_ := socket s in
    let s1 := disposeSocket s in
    {| socket := true;
       connectionState := if reconnecting_ then reconnecting else connecting;
       reconnectTimer := reconnectTimer s1;
       manualClose := manualClose s1;
       opened := S (opened s1) |}.

Definition scheduleReconnect (s : Service) : Service :=
  if reconnectTimer s || negb isPlatformBrowser then s
  else
    {| socket := socket s;
       connectionState := connectionState s;
       reconnectTimer := true;
       manualClose := manualClose s;
       opened := opened s |}.

Definition setState (c : AgentConnectionStatus) (s : Service) : Service :=
  {| socket := socket s;
     connectionState := c;
     reconnectTimer := reconnectTimer s;
     manualClose := manualClose s;
     opened := opened s |}.

(** The open observer. *)
Definition handleOpen (s : Service) : Service := setState connected s.

(** The close observer. *)
Definition handleDisconnect (s : Service) : Service :=
  if manualClose s then
    {| socket := socket s;
       connectionState := disconnected;
       reconnectTimer := reconnectTimer s;
       manualClose := false;
       opened := opened s |}
  else scheduleReconnect (setState disconnected s).

Definition handleError (s : Service) : Service :=
  scheduleReconnect (setState disconnected s).

(** The callback armed by [scheduleReconnect]; it runs only while the
    timer is pending. *)
Definition timerFires (s : Service) : Service :=
  if reconnectTimer s then
    connect {| socket := socket s;
               connectionState := connectionState s;
               reconnectTimer := false;
               manualClose := manualClose s;
               opened := opened s |}
  else s.

(** [socket$.complete()] closes the transport; the close observer runs
    later, as a [handleDisconnect] step of its own. *)
Definition disconnect (s : Service) : Service :=
  disposeSocket
    {| socket := socket s;
       connectionState := connectionState s;
       reconnectTimer := reconnectTimer s;
       manualClose := true;
       opened := opened s |}.

(** The constructor connects at once in a browser. *)
Definition constructed : Service :=
  if isPlatformBrowser then connect initial else initial.

(** The connection part of [send]. *)
Definition send (s : Service) : Service :=
  if negb (socket s) ||
     match connectionState s with disconnected => true | _ => false end
  then connect s else s.

End Lifecycle.

(** A payload of conversation ["c"] and response ["r1"]. *)
Definition samplePayload (ty : TypeField) : Payload :=
  {| p_type := ty; p_conversationId := "c"; p_responseId := Id "r1";
     p_status := None; p_token := None; p_tokens := None; p_content := None |}.

End AiStreamService.

(** ** app.ts: the conversation state store *)

Module Msg.
Inductive MessageRole : Type := user | agent.

Record ConversationMessage : Type := mk {
  id : string;
  role : MessageRole;
  content : string;
  createdAt : Z;
  responseId : ResponseId;
  status : option AgentResponseStatus;
  tokens : option (list string);
  isStreaming : option bool;
  finished : option bool;
  visible : bool
}.
End Msg.
Abbreviation ConversationMessage := Msg.ConversationMessage.

(** The readings of the clock and of the identifier generator that one
    operation consumes. *)
Record Env : Type := {
  now : Z;
  uuid : string
}.

Module App.

(** The two signals of the component, and the commands it has handed to
    the service so far. *)
Record State : Type := {
  messages : list ConversationMessage;
  conversationId : string;
  sent : list AgentSocketCommand
}.

Definition isAgent (m : ConversationMessage) : bool :=
  match Msg.role m with Msg.agent => true | Msg.user => false end.

(** State right after construction: the constructor announces the session. *)
Definition initial (cid : string) : State :=
  {| messages := []; conversationId := cid; sent := [NewSession cid] |}.

Definition withVisible (m : ConversationMessage) (v : bool)
  : ConversationMessage :=
  Msg.mk (Msg.id m) (Msg.role m) (Msg.content m) (Msg.createdAt m)
         (Msg.responseId m) (Msg.status m) (Msg.tokens m)
         (Msg.isStreaming m) (Msg.finished m) v.

(** [{ ...m, status: 'stopped', isStreaming: false, finished: true }]. *)
Definition withStopped (m : ConversationMessage) : ConversationMessage :=
  Msg.mk (Msg.id m) (Msg.role m) (Msg.content m) (Msg.createdAt m)
         (Msg.responseId m) (Some stopped) (Msg.tokens m)
         (Some false) (Some true) (Msg.visible m).

Definition isHiddenAgent (m : ConversationMessage) : bool :=
  isAgent m && negb (Msg.visible m).

Definition releaseQueuedAgentResponses (messages : list ConversationMessage)
  : list ConversationMessage :=
  match findIndex isHiddenAgent messages with
  | None => messages
  | Some hiddenIndex =>
      let previousAgent := find isAgent (rev (take hiddenIndex messages)) in
      if match previousAgent with
         | None => true
         | Some p => truthy (Msg.finished p)
         end
      then
        match messages !! hiddenIndex with
        | Some target => <[hiddenIndex := withVisible target true]> messages
        | None => messages
        end
      else messages
  end.

Definition matchesResponse (event : AgentStreamEvent)
           (m : ConversationMessage) : bool :=
  strictEq (Msg.responseId m) (Ev.responseId event) && isAgent m.

Definition isUnfinishedAgent (m : ConversationMessage) : bool :=
  isAgent m && negb (truthy (Msg.finished m)).

(** The message pushed by [ensureAgentMessage] when none matches. *)
Definition insertion (e : Env) (messages : list ConversationMessage)
           (event : AgentStreamEvent) : ConversationMessage :=
  let hasActiveAgent := existsb isUnfinishedAgent messages in
  let initialStatus :=
    orElse (Ev.status event)
           (if String.eqb (Ev.type event) "response-token"
            then streaming else thinking) in
  Msg.mk (idOrElse (Ev.responseId event) (uuid e))
         Msg.agent
         (orElse (Ev.content event) "")
         (now e)
         (Ev.responseId event)
         (Some initialStatus)
         (Some (orElse (Ev.tokens event) []))
         (Some (isActiveStatus initialStatus))
         (Some false)
         (negb hasActiveAgent).

(** [ensureAgentMessage] pushes on the array it is given and returns an
    index: here it returns the array too. *)
Definition ensureAgentMessage (e : Env)
           (messages : list ConversationMessage) (event : AgentStreamEvent)
  : list ConversationMessage * nat :=
  match findIndex (matchesResponse event) messages with
  | Some existingIndex => (messages, existingIndex)
  | None => (messages ++ [insertion e messages event], length messages)
  end.

(** The [switch] of [handleStreamEvent]: six cases and no default.
    [content] and [createdAt] are required fields that every constructor of
    a message sets, so [target.content ?? ''] is [target.content] and
    [target.createdAt ?? Date.now()] is [target.createdAt]. *)
Definition applyEvent (event : AgentStreamEvent)
           (target : ConversationMessage) : ConversationMessage :=
  let ty := Ev.type event in
  if String.eqb ty "response-start" then
    Msg.mk (Msg.id target) (Msg.role target) (Msg.content target)
           (Msg.createdAt target) (Msg.responseId target)
           (Some (orElse (Ev.status event) thinking))
           (Msg.tokens target) (Some true) (Msg.finished target)
           (Msg.visible target)
  else if String.eqb ty "response-token" then
    Msg.mk (Msg.id target) (Msg.role target)
           (Msg.content target ++ orElse (Ev.token event) "")%string
           (Msg.createdAt target) (Msg.responseId target)
           (Some streaming)
           (Some (orElse (Msg.tokens target) [] ++ [orElse (Ev.token event) ""]))
           (Some true) (Msg.finished target) (Msg.visible target)
  else if String.eqb ty "response-status" then
    Msg.mk (Msg.id target) (Msg.role target) (Msg.content target)
           (Msg.createdAt target) (Msg.responseId target)
           (match Ev.status event with
            | Some s => Some s
            | None => Msg.status target
            end)
           (Msg.tokens target)
           (Some (statusIs (Ev.status event) thinking
                  || statusIs (Ev.status event) streaming))
           (Msg.finished target) (Msg.visible target)
  else if String.eqb ty "response-end" then
    Msg.mk (Msg.id target) (Msg.role target)
           (orElse (Ev.content event) (Msg.content target))
           (Msg.createdAt target) (Msg.responseId target)
           (Some (orElse (Ev.status event) completed))
           (Msg.tokens target) (Some false) (Some true) (Msg.visible target)
  else if String.eqb ty "response-error" then
    Msg.mk (Msg.id target) (Msg.role target) (Msg.content target)
           (Msg.createdAt target) (Msg.responseId target)
           (Some error)
           (Msg.tokens target) (Some false) (Some true) (Msg.visible target)
  else if String.eqb ty "response-stop" then
    withStopped target
  else target.

Definition setMessages (st : State) (ms : list ConversationMessage) : State :=
  {| messages := ms; conversationId := conversationId st; sent := sent st |}.

Definition handleStreamEvent (e : Env) (event : AgentStreamEvent)
           (st : State) : State :=
  if negb (String.eqb (Ev.conversationId event) (conversationId st)) then st
  else
    let '(updated, index) := ensureAgentMessage e (messages st) event in
    match updated !! index with
    | None => st
    | Some target =>
        let nextMessage := applyEvent event target in
        let updated := <[index := nextMessage]> updated in
        if truthy (Msg.finished nextMessage)
        then setMessages st (releaseQueuedAgentResponses updated)
        else setMessages st updated
    end.

(** [submitPrompt], given the trimmed value of the composer. *)
Definition submitPrompt (e : Env) (rawValue : string) (st : State) : State :=
  if String.eqb rawValue "" then st
  else
    let message :=
      Msg.mk (uuid e) Msg.user rawValue (now e) IdUndefined None None None None
             true in
    {| messages := messages st ++ [message];
       conversationId := conversationId st;
       sent := sent st ++ [UserMessage (conversationId st) rawValue] |}.

Definition isStreamingAgent (m : ConversationMessage) : bool :=
  isAgent m && truthy (Msg.isStreaming m).

Definition stopStreaming (st : State) : State :=
  match find isStreamingAgent (rev (messages st)) with
  | None => st
  | Some active =>
      if negb (truthyString (Msg.responseId active)) then st
      else
        let current := messages st in
        {| messages :=
             match findIndex
                     (fun m => String.eqb (Msg.id m) (Msg.id active))
                     current with
             | None => current
             | Some index =>
                 match current !! index with
                 | Some m =>
                     releaseQueuedAgentResponses
                       (<[index := withStopped m]> current)
                 | None => current
                 end
             end;
           conversationId := conversationId st;
           sent := sent st ++ [StopResponse (conversationId st)
                                            (Msg.responseId active)
                                            (Some "user-request")] |}
  end.

(** [startNewChat], given the identifier [createConversationId] returns. *)
Definition startNewChat (freshConversationId : string) (st : State) : State :=
  {| messages := [];
     conversationId := freshConversationId;
     sent := sent st ++ [NewSession freshConversationId] |}.

(** What can happen to the component, one step at a time. *)
Inductive Action : Type :=
  | Deliver (e : Env) (event : AgentStreamEvent)
  | SubmitPrompt (e : Env) (rawValue : string)
  | StopStreaming
  | StartNewChat (freshConversationId : string).

Definition step (st : State) (a : Action) : State :=
  match a with
  | Deliver e event => handleStreamEvent e event st
  | SubmitPrompt e rawValue => submitPrompt e rawValue st
  | StopStreaming => stopStreaming st
  | StartNewChat c => startNewChat c st
  end.

Definition run (st : State) (actions : list Action) : State :=
  fold_left step actions st.

(** Number of agent messages shown while still unfinished. *)
Definition isShownUnfinished (m : ConversationMessage) : bool :=
  isAgent m && Msg.visible m && negb (truthy (Msg.finished m)).

Definition shownUnfinished (ms : list ConversationMessage) : nat :=
  length (List.filter isShownUnfinished ms).

End App.

Import App.

(** ** Notions used to state the properties *)

(** Every agent message that is shown comes after finished agent messages
    only.  This is what the visibility policy maintains. *)
Definition queueInv (ms : list ConversationMessage) : Prop :=
  forall i j mi mj,
    i < j -> ms !! i = Some mi -> ms !! j = Some mj ->
    isAgent mi = true -> isAgent mj = true -> Msg.visible mj = true ->
    truthy (Msg.finished mi) = true.

(** The message list after an event of the active conversation: the target
    is overwritten, then the queue is released if the target is finished. *)
Definition deliver (e : Env) (ev : AgentStreamEvent)
           (ms : list ConversationMessage) : list ConversationMessage :=
  let '(updated, index) := ensureAgentMessage e ms ev in
  match updated !! index with
  | None => ms
  | Some target =>
      let nextMessage := applyEvent ev target in
      if truthy (Msg.finished nextMessage)
      then releaseQueuedAgentResponses (<[index := nextMessage]> updated)
      else <[index := nextMessage]> updated
  end.

(** [t], at index [h], is the earliest hidden agent message of [ms]. *)
Definition earliestHidden (ms : list ConversationMessage) (h : nat)
           (t : ConversationMessage) : Prop :=
  ms !! h = Some t /\ isHiddenAgent t = true /\
  forall j y, j < h -> ms !! j = Some y -> isHiddenAgent y = false.

(** The agent message nearest before index [h], or [None] when no agent
    message comes before [h]. *)
Definition precedingAgent (ms : list ConversationMessage) (h : nat)
           (o : option ConversationMessage) : Prop :=
  match o with
  | None => forall j y, j < h -> ms !! j = Some y -> isAgent y = false
  | Some p =>
      exists q, q < h /\ ms !! q = Some p /\ isAgent p = true /\
                forall k y, q < k -> k < h -> ms !! k = Some y -> isAgent y = false
  end.

(** The three event types that finish a response. *)
Definition isTerminalType (ty : string) : bool :=
  String.eqb ty "response-end" || String.eqb ty "response-error"
  || String.eqb ty "response-stop".

(** The running concatenation of the [token] fields, an absent token
    counting as the empty string. *)
Definition tokenText (ev : AgentStreamEvent) : string := orElse (Ev.token ev) "".

Definition joinTokens (evs : list AgentStreamEvent) : string :=
  fold_right (fun ev acc => (tokenText ev ++ acc)%string) "" evs.

(** [ev] belongs to conversation [cid] and response [rid], with type [ty]. *)
Definition isFor (cid : string) (rid : ResponseId) (ty : string)
           (ev : AgentStreamEvent) : Prop :=
  Ev.conversationId ev = cid /\ Ev.responseId ev = rid /\ Ev.type ev = ty.

Definition deliverAll (evs : list (Env * AgentStreamEvent)) : list Action :=
  map (fun p => Deliver (fst p) (snd p)) evs.

(** The message of response [rid] sits at index [n], unfinished, with
    content [c]. *)
Definition accumulating (rid : ResponseId) (n : nat) (c : string)
           (ms : list ConversationMessage) : Prop :=
  (forall ev, Ev.responseId ev = rid ->
              findIndex (matchesResponse ev) ms = Some n) /\
  exists m, ms !! n = Some m /\ Msg.finished m = Some false /\ Msg.content m = c.




(** Whether the message [ev] is about exists already and is finished. *)
Definition targetFinished (ev : AgentStreamEvent)
           (ms : list ConversationMessage) : bool :=
  match findIndex (matchesResponse ev) ms with
  | Some i =>
      match ms !! i with
      | Some t => truthy (Msg.finished t)
      | None => false
      end
  | None => false
  end.




(** A history that never restarts the chat under the identifier [old]. *)
Definition avoidsConversation (old : string) (actions : list Action) : Prop :=
  Forall (fun a => match a with
                   | StartNewChat c => c <> old
                   | _ => True
                   end) actions.

(** [active], at index [i], is the last agent message with [isStreaming]
    set: what [stopStreaming] looks for. *)
Definition latestStreaming (ms : list ConversationMessage) (i : nat)
           (active : ConversationMessage) : Prop :=
  ms !! i = Some active /\ isStreamingAgent active = true /\
  forall k y, i < k -> ms !! k = Some y -> isStreamingAgent y = false.

(** ** Sample inputs for the concrete scenarios *)

Definition sampleEnv : Env := {| now := 0%Z; uuid := "m-1" |}.

(** An event of conversation ["c"] with only the required fields. *)
Definition sampleEvent (ty rid : string) : AgentStreamEvent :=
  Ev.mk "c" (Id rid) ty None None None None.

Definition sampleDeliver (ty rid : string) : Action :=
  Deliver sampleEnv (sampleEvent ty rid).

(** Three responses start; the two queued ones end first, then the shown
    one: ["r1"] is released, ["r2"] stays hidden though finished. *)
Definition backlogState : State :=
  run (initial "c")
      [ sampleDeliver "response-start" "r0";
        sampleDeliver "response-start" "r1";
        sampleDeliver "response-start" "r2";
        sampleDeliver "response-end" "r1";
        sampleDeliver "response-end" "r2";
        sampleDeliver "response-end" "r0" ].

(** Four responses start; the first two queued ones end, then the shown
    one: ["r1"] is released, ["r2"] (finished) and ["r3"] stay hidden. *)
Definition stalledState : State :=
  run (initial "c")
      [ sampleDeliver "response-start" "r0";
        sampleDeliver "response-start" "r1";
        sampleDeliver "response-start" "r2";
        sampleDeliver "response-start" "r3";
        sampleDeliver "response-end" "r1";
        sampleDeliver "response-end" "r2";
        sampleDeliver "response-end" "r0" ].

Definition statusCompleted (rid : string) : AgentStreamEvent :=
  Ev.mk "c" (Id rid) "response-status" (Some completed) None None None.

(** ** The connection life cycle as a whole *)

(** What can happen to the service: the three socket notifications, the
    reconnect timer running out, and the two calls from outside ([send] is
    behind [sendUserPrompt], [stopResponse] and [startNewSession]). *)
Inductive ServiceEvent : Type :=
  | SocketOpened
  | SocketClosed
  | SocketErrored
  | TimerFired
  | CommandSent
  | ManualDisconnect.

Definition serviceStep (isPlatformBrowser agentSocketUrl : bool)
           (s : AiStreamService.Service) (ev : ServiceEvent)
  : AiStreamService.Service :=
  match ev with
  | SocketOpened => AiStreamService.handleOpen s
  | SocketClosed => AiStreamService.handleDisconnect isPlatformBrowser s
  | SocketErrored => AiStreamService.handleError isPlatformBrowser s
  | TimerFired => AiStreamService.timerFires agentSocketUrl s
  | CommandSent => AiStreamService.send agentSocketUrl s
  | ManualDisconnect => AiStreamService.disconnect s
  end.

Definition serviceRun (isPlatformBrowser agentSocketUrl : bool)
           (s : AiStreamService.Service) (evs : list ServiceEvent)
  : AiStreamService.Service :=
  fold_left (serviceStep isPlatformBrowser agentSocketUrl) evs s.


(** The events that call [connect]. *)
Definition mayConnect (ev : ServiceEvent) : bool :=
  match ev with TimerFired | CommandSent => true | _ => false end.

Definition isSocketClosed (ev : ServiceEvent) : bool :=
  match ev with SocketClosed => true | _ => false end.

(** [send] in full: the connection part, then [this.socket$?.next(command)],
    which hands the command to the socket subject when there is one.  The
    second component lists the commands handed over so far. *)
Definition sendCommand (agentSocketUrl : bool) (command : AgentSocketCommand)
           (sw : AiStreamService.Service * list AgentSocketCommand)
  : AiStreamService.Service * list AgentSocketCommand :=
  let s := AiStreamService.send agentSocketUrl (fst sw) in
  (s, if AiStreamService.socket s then snd sw ++ [command] else snd sw).

Definition isDisconnected (c : AiStreamService.AgentConnectionStatus) : bool :=
  match c with AiStreamService.disconnected => true | _ => false end.

(** ** Notions for the further properties of the component *)

(** [hasStreamingResponse], the computed signal behind the stop button. *)
Definition hasStreamingResponse (st : State) : bool :=
  existsb isStreamingAgent (messages st).

(** A history without [startNewChat]. *)
Definition noReset (actions : list Action) : bool :=
  forallb (fun a => match a with StartNewChat _ => false | _ => true end)
          actions.

(** A history of stream events and submitted prompts only. *)
Definition onlyEventsAndPrompts (actions : list Action) : bool :=
  forallb (fun a => match a with
                    | Deliver _ _ | SubmitPrompt _ _ => true
                    | _ => false
                    end) actions.

(** [m'] is a later version of the message [m]: the same message, never
    hidden again, never unfinished again. *)
Definition laterVersion (m m' : ConversationMessage) : Prop :=
  Msg.id m' = Msg.id m /\ Msg.role m' = Msg.role m /\
  Msg.responseId m' = Msg.responseId m /\
  Msg.createdAt m' = Msg.createdAt m /\
  (truthy (Msg.finished m) = true -> truthy (Msg.finished m') = true) /\
  (Msg.visible m = true -> Msg.visible m' = true).

(** [ms'] holds a later version of every message of [ms], at its index. *)
Definition evolves (ms ms' : list ConversationMessage) : Prop :=
  forall i m, ms !! i = Some m ->
              exists m', ms' !! i = Some m' /\ laterVersion m m'.

Definition hiddenCount (ms : list ConversationMessage) : nat :=
  length (List.filter isHiddenAgent ms).

Definition streamingCount (ms : list ConversationMessage) : nat :=
  length (List.filter isStreamingAgent ms).

Definition concatTokens (ts : list string) : string :=
  fold_right String.append "" ts.

(** An event that carries neither [content] nor [tokens]. *)
Definition isPlainEvent (ev : AgentStreamEvent) : bool :=
  match Ev.content ev, Ev.tokens ev with
  | None, None => true
  | _, _ => false
  end.

Definition plainHistory (actions : list Action) : bool :=
  forallb (fun a => match a with
                    | Deliver _ ev => isPlainEvent ev
                    | _ => true
                    end) actions.

(** The six event types that have a case in the [switch]. *)
Definition isHandledType (ty : string) : bool :=
  String.eqb ty "response-start" || String.eqb ty "response-token"
  || String.eqb ty "response-status" || String.eqb ty "response-end"
  || String.eqb ty "response-error" || String.eqb ty "response-stop".

Definition commandConversation (cmd : AgentSocketCommand) : string :=
  match cmd with
  | UserMessage c _ => c
  | StopResponse c _ _ => c
  | NewSession c => c
  end.

Definition isNewSession (cmd : AgentSocketCommand) : bool :=
  match cmd with NewSession _ => true | _ => false end.

(** Reads a command log from the session [cur] on: [Some c] when every
    user-message and stop-response command names the session announced last
    before it, [c] being the session announced last of all. *)
Fixpoint addressedTo (cur : string) (cmds : list AgentSocketCommand)
  : option string :=
  match cmds with
  | [] => Some cur
  | cmd :: rest =>
      if isNewSession cmd then addressedTo (commandConversation cmd) rest
      else if String.eqb (commandConversation cmd) cur
           then addressedTo cur rest
           else None
  end.

(** What [ensureAgentMessage] looks at in a message: nothing for a user
    message, the response id for an agent message. *)
Definition agentKey (m : ConversationMessage) : option ResponseId :=
  if isAgent m then Some (Msg.responseId m) else None.

(** No two entries of a list of keys hold the same response id. *)
Definition keysUnique (ks : list (option ResponseId)) : Prop :=
  forall i j r, ks !! i = Some (Some r) -> ks !! j = Some (Some r) -> i = j.

(** Every agent message of the list is finished. *)
Definition allAgentsFinished (ms : list ConversationMessage) : Prop :=
  forall i m, ms !! i = Some m -> isAgent m = true ->
              truthy (Msg.finished m) = true.

(** The content of an agent message is the concatenation of its tokens. *)
Definition tokensAgree (m : ConversationMessage) : Prop :=
  isAgent m = true ->
  exists ts, Msg.tokens m = Some ts /\ Msg.content m = concatTokens ts.

(** The command log starts with the announcement of session [c0] and is
    addressed throughout, ending in the session the component is in. *)
Definition sessionInSync (c0 : string) (st : State) : Prop :=
  exists rest, sent st = NewSession c0 :: rest /\
               addressedTo c0 rest = Some (conversationId st).

(** ** Identifiers drawn from the generator *)

(** The identifiers that [createMessageId] is asked for in a history: one
    for each submitted prompt that is not empty, one at most for each event
    without a response id. *)
Definition actionUuids (actions : list Action) : list string :=
  flat_map (fun a => match a with
                     | Deliver e ev =>
                         match Ev.responseId ev with
                         | Id _ => []
                         | IdUndefined | IdNull => [uuid e]
                         end
                     | SubmitPrompt e rawValue =>
                         if String.eqb rawValue "" then [] else [uuid e]
                     | _ => []
                     end) actions.

(** The response ids that the events of a history carry. *)
Definition actionResponseIds (actions : list Action) : list string :=
  flat_map (fun a => match a with
                     | Deliver _ ev =>
                         match Ev.responseId ev with
                         | Id s => [s]
                         | IdUndefined | IdNull => []
                         end
                     | _ => []
                     end) actions.

(** The generator never returns the same identifier twice, nor one that
    the backend uses as a response id. *)
Definition uuidsFresh (actions : list Action) : Prop :=
  NoDup (actionUuids actions) /\
  forall u, u ∈ actionUuids actions -> u ∉ actionResponseIds actions.

(** The id of a message and what [ensureAgentMessage] looks at in it. *)
Definition idKey (m : ConversationMessage) : string * option ResponseId :=
  (Msg.id m, agentKey m).

(** The ids of a list of keys are distinct, and each is either the response
    id of its agent message, known to [R], or an identifier outside [R] that
    the generator will not return again ([U] is what it has yet to return). *)
Definition keysFresh (R U : list string)
           (ks : list (string * option ResponseId)) : Prop :=
  NoDup (fst <$> ks) /\
  Forall (fun k => (snd k = Some (Id (fst k)) /\ (fst k ∈ R))
                   \/ ((fst k ∉ R) /\ (fst k ∉ U))) ks.


(** * Properties *)

Ltac by_event_type :=
  unfold applyEvent;
  repeat match goal with
         | |- context [String.eqb ?a ?b] => destruct (String.eqb a b)
         end.


(** ** Searching a list *)

Section Searching.
Context {A : Type}.
Implicit Types (p : A -> bool) (l : list A).

Lemma findIndex_Some p l i :
  findIndex p l = Some i ->
  exists x, l !! i = Some x /\ p x = true /\
            forall j y, j < i -> l !! j = Some y -> p y = false.
Proof.
  revert i. induction l as [|a l IH]; intros i H; simpl in H; [discriminate|].
  destruct (p a) eqn:Hp.
  - injection H as <-. exists a. repeat split; auto. intros j y Hj. lia.
  - destruct (findIndex p l) as [k|]; simpl in H; [|discriminate].
    injection H as <-. destruct (IH k eq_refl) as (x & Hx & Hpx & Hlt).
    exists x. repeat split; auto.
    intros [|j] y Hj Hy; simpl in Hy.
    + congruence.
    + apply (Hlt j); [lia | exact Hy].
Qed.

Lemma findIndex_None p l :
  findIndex p l = None -> forall j y, l !! j = Some y -> p y = false.
Proof.
  induction l as [|a l IH]; intros H j y Hy; [destruct j; discriminate|].
  simpl in H. destruct (p a) eqn:Hp; [discriminate|].
  destruct (findIndex p l); [discriminate|].
  destruct j as [|j]; simpl in Hy; [congruence | eauto].
Qed.

Lemma findIndex_first p l i x :
  l !! i = Some x -> p x = true ->
  (forall j y, j < i -> l !! j = Some y -> p y = false) ->
  findIndex p l = Some i.
Proof.
  revert i. induction l as [|a l IH]; intros i Hx Hp Hlt; [destruct i; discriminate|].
  destruct i as [|i]; simpl in *.
  - injection Hx as ->. now rewrite Hp.
  - rewrite (Hlt 0 a) by (auto; lia).
    rewrite (IH i); auto. intros j y Hj Hy. apply (Hlt (S j)); [lia | exact Hy].
Qed.

Lemma findIndex_none_intro p l :
  (forall j y, l !! j = Some y -> p y = false) -> findIndex p l = None.
Proof.
  induction l as [|a l IH]; intros H; [reflexivity|]. simpl.
  rewrite (H 0 a) by reflexivity. rewrite IH; [reflexivity|].
  intros j y Hy. apply (H (S j)). exact Hy.
Qed.

(** Two arrays whose entries agree on [p] are searched alike. *)
Lemma findIndex_agree p l l' :
  length l = length l' ->
  (forall j x y, l !! j = Some x -> l' !! j = Some y -> p x = p y) ->
  findIndex p l = findIndex p l'.
Proof.
  revert l'. induction l as [|a l IH]; intros [|b l'] Hlen H; try discriminate.
  - reflexivity.
  - simpl. rewrite (H 0 a b) by reflexivity.
    rewrite (IH l'); [reflexivity | simpl in Hlen; lia |].
    intros j x y Hx Hy. apply (H (S j)); assumption.
Qed.

Lemma find_snoc p l a :
  find p (rev (l ++ [a])) = if p a then Some a else find p (rev l).
Proof. rewrite rev_app_distr. reflexivity. Qed.

(** [find] on the reversed array returns the last match. *)
Lemma find_rev_Some p l x :
  find p (rev l) = Some x ->
  exists j, l !! j = Some x /\ p x = true /\
            forall k y, j < k -> l !! k = Some y -> p y = false.
Proof.
  induction l as [|a l IH] using rev_ind; intros H; [discriminate|].
  rewrite find_snoc in H. destruct (p a) eqn:Hp.
  - injection H as <-. exists (length l). split; [|split; [exact Hp|]].
    + rewrite lookup_app_r by lia. now rewrite Nat.sub_diag.
    + intros k y Hk Hy. apply lookup_lt_Some in Hy.
      rewrite length_app in Hy. simpl in Hy. lia.
  - destruct (IH H) as (j & Hj & Hpx & Hgt). exists j.
    split; [|split; [exact Hpx|]].
    + rewrite lookup_app_l; [exact Hj|]. now apply lookup_lt_Some in Hj.
    + intros k y Hk Hy.
      destruct (Nat.lt_ge_cases k (length l)) as [Hl|Hl].
      * rewrite lookup_app_l in Hy by exact Hl. now apply (Hgt k).
      * rewrite lookup_app_r in Hy by exact Hl.
        destruct (k - length l) as [|n]; simpl in Hy; [congruence|].
        destruct n; discriminate.
Qed.

Lemma find_rev_None p l :
  find p (rev l) = None -> forall j y, l !! j = Some y -> p y = false.
Proof.
  induction l as [|a l IH] using rev_ind; intros H j y Hy; [destruct j; discriminate|].
  rewrite find_snoc in H. destruct (p a) eqn:Hp; [discriminate|].
  destruct (Nat.lt_ge_cases j (length l)) as [Hl|Hl].
  - rewrite lookup_app_l in Hy by exact Hl. now apply (IH H j).
  - rewrite lookup_app_r in Hy by exact Hl.
    destruct (j - length l) as [|n]; simpl in Hy; [congruence|].
    destruct n; discriminate.
Qed.

Lemma find_rev_last p l j x :
  l !! j = Some x -> p x = true ->
  (forall k y, j < k -> l !! k = Some y -> p y = false) ->
  find p (rev l) = Some x.
Proof.
  intros Hj Hp Hgt. destruct (find p (rev l)) as [z|] eqn:Hf.
  - destruct (find_rev_Some _ _ _ Hf) as (i & Hi & Hpz & Hgi).
    destruct (Nat.lt_trichotomy i j) as [Hlt|[->|Hlt]].
    + rewrite (Hgi j x Hlt Hj) in Hp. discriminate.
    + congruence.
    + rewrite (Hgt i z Hlt Hi) in Hpz. discriminate.
  - rewrite (find_rev_None _ _ Hf j x Hj) in Hp. discriminate.
Qed.

End Searching.

(** ** The queue discipline of the message list *)

Lemma queueInv_nil : queueInv [].
Proof. intros i j mi mj _ H. destruct i; discriminate. Qed.

Lemma queueInv_tail m ms : queueInv (m :: ms) -> queueInv ms.
Proof.
  intros H i j mi mj Hij Hi Hj. apply (H (S i) (S j)); [lia | exact Hi | exact Hj].
Qed.

Lemma queueInv_snoc ms m :
  queueInv ms ->
  (isAgent m = true -> Msg.visible m = true ->
   forall i x, ms !! i = Some x -> isUnfinishedAgent x = false) ->
  queueInv (ms ++ [m]).
Proof.
  intros Hinv Hm i j mi mj Hij Hi Hj Ai Aj Vj.
  assert (Hil : i < length ms).
  { apply lookup_lt_Some in Hj. rewrite length_app in Hj. simpl in Hj. lia. }
  rewrite lookup_app_l in Hi by exact Hil.
  destruct (Nat.lt_ge_cases j (length ms)) as [Hl|Hl].
  - rewrite lookup_app_l in Hj by exact Hl. now apply (Hinv i j mi mj).
  - rewrite lookup_app_r in Hj by exact Hl.
    destruct (j - length ms) as [|n]; simpl in Hj; [|destruct n; discriminate].
    injection Hj as ->. specialize (Hm Aj Vj i mi Hi).
    unfold isUnfinishedAgent in Hm. rewrite Ai in Hm. simpl in Hm.
    now destruct (truthy (Msg.finished mi)).
Qed.

(** Overwriting an entry keeps the discipline when the role and the
    visibility stay and [finished] is not taken back. *)
Lemma queueInv_insert ms k m m' :
  queueInv ms -> ms !! k = Some m ->
  isAgent m' = isAgent m -> Msg.visible m' = Msg.visible m ->
  (truthy (Msg.finished m) = true -> truthy (Msg.finished m') = true) ->
  queueInv (<[k := m']> ms).
Proof.
  intros Hinv Hk Hrole Hvis Hfin i j mi mj Hij Hi Hj Ai Aj Vj.
  assert (Hklt : k < length ms) by now apply lookup_lt_Some in Hk.
  assert (Hi' : exists ni, ms !! i = Some ni /\ isAgent ni = true /\
                   (truthy (Msg.finished ni) = true -> truthy (Msg.finished mi) = true)).
  { destruct (Nat.eq_dec k i) as [->|Hne].
    - rewrite list_lookup_insert_eq in Hi by exact Hklt. injection Hi as <-.
      exists m. rewrite <- Hrole. auto.
    - rewrite list_lookup_insert_ne in Hi by exact Hne. exists mi. auto. }
  assert (Hj' : exists nj, ms !! j = Some nj /\ isAgent nj = true /\
                   Msg.visible nj = true).
  { destruct (Nat.eq_dec k j) as [->|Hne].
    - rewrite list_lookup_insert_eq in Hj by exact Hklt. injection Hj as <-.
      exists m. rewrite <- Hrole, <- Hvis. auto.
    - rewrite list_lookup_insert_ne in Hj by exact Hne. exists mj. auto. }
  destruct Hi' as (ni & Hni & Ani & Fni). destruct Hj' as (nj & Hnj & Anj & Vnj).
  apply Fni. now apply (Hinv i j ni nj).
Qed.

Lemma isAgent_withVisible m v : isAgent (withVisible m v) = isAgent m.
Proof. reflexivity. Qed.

(** What [releaseQueuedAgentResponses] does, case by case. *)
Lemma release_cases ms :
  releaseQueuedAgentResponses ms = ms \/
  exists h target,
    findIndex isHiddenAgent ms = Some h /\ ms !! h = Some target /\
    isHiddenAgent target = true /\
    (forall j y, j < h -> ms !! j = Some y -> isHiddenAgent y = false) /\
    (forall j y, j < h -> ms !! j = Some y -> isAgent y = true ->
                 exists p, find isAgent (rev (take h ms)) = Some p /\
                           truthy (Msg.finished p) = true) /\
    releaseQueuedAgentResponses ms = <[h := withVisible target true]> ms.
Proof.
  unfold releaseQueuedAgentResponses.
  destruct (findIndex isHiddenAgent ms) as [h|] eqn:Hf; [|now left].
  destruct (findIndex_Some _ _ _ Hf) as (t & Ht & Hhid & Hbefore).
  rewrite Ht.
  destruct (find isAgent (rev (take h ms))) as [p|] eqn:Hp.
  - destruct (truthy (Msg.finished p)) eqn:Hfin; [|now left].
    right. exists h, t. repeat split; auto. intros. now exists p.
  - right. exists h, t. repeat split; auto.
    intros j y Hj Hy Ay. exfalso.
    assert (Hy' : take h ms !! j = Some y) by (rewrite lookup_take_lt; auto).
    rewrite (find_rev_None _ _ Hp j y Hy') in Ay. discriminate.
Qed.

Lemma queueInv_release ms :
  queueInv ms -> queueInv (releaseQueuedAgentResponses ms).
Proof.
  intros Hinv.
  destruct (release_cases ms) as [->|(h & t & Hf & Ht & Hhid & Hbefore & Hprev & ->)];
    [exact Hinv|].
  assert (Hhlt : h < length ms) by now apply lookup_lt_Some in Ht.
  intros i j mi mj Hij Hi Hj Ai Aj Vj.
  destruct (Nat.eq_dec h j) as [<-|Hnej].
  - (* the released message: every agent before it is finished *)
    rewrite list_lookup_insert_ne in Hi by lia.
    destruct (Hprev i mi Hij Hi Ai) as (p & Hp & Fp).
    destruct (find_rev_Some _ _ _ Hp) as (q & Hq & Ap & Hlast).
    assert (Hqh : q < h).
    { apply lookup_lt_Some in Hq. rewrite length_take in Hq. lia. }
    rewrite lookup_take_lt in Hq by exact Hqh.
    destruct (Nat.lt_trichotomy i q) as [Hlt|[->|Hgt]].
    + apply (Hinv i q mi p); auto.
      specialize (Hbefore q p Hqh Hq). unfold isHiddenAgent in Hbefore.
      rewrite Ap in Hbefore. simpl in Hbefore. now destruct (Msg.visible p).
    + congruence.
    + assert (Hi' : take h ms !! i = Some mi) by (rewrite lookup_take_lt; auto).
      rewrite (Hlast i mi Hgt Hi') in Ai. discriminate.
  - rewrite list_lookup_insert_ne in Hj by exact Hnej.
    destruct (Nat.eq_dec h i) as [<-|Hnei].
    + rewrite list_lookup_insert_eq in Hi by exact Hhlt. injection Hi as <-.
      simpl. apply (Hinv h j t mj); auto.
    + rewrite list_lookup_insert_ne in Hi by exact Hnei.
      now apply (Hinv i j mi mj).
Qed.

Lemma shownUnfinished_cons m ms :
  shownUnfinished (m :: ms) =
  (if isShownUnfinished m then 1 else 0) + shownUnfinished ms.
Proof. unfold shownUnfinished. simpl. now destruct (isShownUnfinished m). Qed.

(** After an unfinished agent message, nothing is shown. *)
Lemma shownUnfinished_blocked m ms :
  queueInv (m :: ms) -> isUnfinishedAgent m = true -> shownUnfinished ms = 0.
Proof.
  intros Hinv Hm.
  assert (Hall : forall j y, ms !! j = Some y -> isShownUnfinished y = false).
  { intros j y Hy. unfold isShownUnfinished.
    destruct (isAgent y) eqn:Ay; [|reflexivity].
    destruct (Msg.visible y) eqn:Vy; [|reflexivity]. exfalso.
    unfold isUnfinishedAgent in Hm. apply andb_prop in Hm as [Am Fm].
    assert (truthy (Msg.finished m) = true)
      by (apply (Hinv 0 (S j) m y); auto; lia).
    rewrite H in Fm. discriminate. }
  clear Hinv. induction ms as [|a ms IH]; [reflexivity|].
  rewrite shownUnfinished_cons, (Hall 0 a eq_refl). simpl.
  apply IH. intros j y Hy. apply (Hall (S j)). exact Hy.
Qed.

Lemma queueInv_shownUnfinished ms : queueInv ms -> shownUnfinished ms <= 1.
Proof.
  induction ms as [|m ms IH]; intros Hinv; [unfold shownUnfinished; simpl; lia|].
  rewrite shownUnfinished_cons.
  destruct (isShownUnfinished m) eqn:Hm.
  - rewrite (shownUnfinished_blocked m ms Hinv); [lia|].
    unfold isShownUnfinished in Hm. unfold isUnfinishedAgent.
    destruct (isAgent m), (Msg.visible m); simpl in *; auto; discriminate.
  - specialize (IH (queueInv_tail _ _ Hinv)). lia.
Qed.

(** ** What one event does to its target *)

Lemma applyEvent_role ev t : isAgent (applyEvent ev t) = isAgent t.
Proof. by_event_type; reflexivity. Qed.

Lemma applyEvent_visible ev t : Msg.visible (applyEvent ev t) = Msg.visible t.
Proof. by_event_type; reflexivity. Qed.

Lemma applyEvent_responseId ev t :
  Msg.responseId (applyEvent ev t) = Msg.responseId t.
Proof. by_event_type; reflexivity. Qed.

Lemma applyEvent_id ev t : Msg.id (applyEvent ev t) = Msg.id t.
Proof. by_event_type; reflexivity. Qed.

Lemma applyEvent_finished_mono ev t :
  truthy (Msg.finished t) = true -> truthy (Msg.finished (applyEvent ev t)) = true.
Proof. by_event_type; simpl; auto. Qed.

Lemma existsb_false_lookup {A : Type} (p : A -> bool) (l : list A) :
  existsb p l = false -> forall i x, l !! i = Some x -> p x = false.
Proof.
  induction l as [|a l IH]; intros H i x Hx; [destruct i; discriminate|].
  simpl in H. apply orb_false_elim in H as [Ha Hl].
  destruct i as [|i]; simpl in Hx; [congruence | eauto].
Qed.

Lemma existsb_true_lookup {A : Type} (p : A -> bool) (l : list A) i x :
  l !! i = Some x -> p x = true -> existsb p l = true.
Proof.
  revert i. induction l as [|a l IH]; intros [|i] Hx Hp; try discriminate; simpl in *.
  - injection Hx as ->. now rewrite Hp.
  - rewrite (IH i Hx Hp). apply orb_true_r.
Qed.

(** The two outcomes of [ensureAgentMessage]. *)
Lemma ensureAgentMessage_cases e ms ev :
  (exists i, findIndex (matchesResponse ev) ms = Some i /\
             ensureAgentMessage e ms ev = (ms, i)) \/
  (findIndex (matchesResponse ev) ms = None /\
   ensureAgentMessage e ms ev = (ms ++ [insertion e ms ev], length ms)).
Proof.
  unfold ensureAgentMessage.
  destruct (findIndex (matchesResponse ev) ms) as [i|]; [left; eauto | right; auto].
Qed.

Lemma queueInv_insertion e ms ev :
  queueInv ms -> queueInv (ms ++ [insertion e ms ev]).
Proof.
  intros Hinv. apply queueInv_snoc; [exact Hinv|].
  intros _ Hvis. simpl in Hvis. apply negb_true_iff in Hvis.
  now apply existsb_false_lookup.
Qed.

Lemma queueInv_ensureAgentMessage e ms ev :
  queueInv ms -> queueInv (fst (ensureAgentMessage e ms ev)).
Proof.
  intros Hinv.
  destruct (ensureAgentMessage_cases e ms ev) as [(i & _ & ->)|[_ ->]]; simpl;
    [exact Hinv | now apply queueInv_insertion].
Qed.

Lemma handleStreamEvent_active e ev st :
  Ev.conversationId ev = conversationId st ->
  handleStreamEvent e ev st = setMessages st (deliver e ev (messages st)).
Proof.
  intros Hc. unfold handleStreamEvent, deliver.
  rewrite Hc, String.eqb_refl. simpl.
  destruct (ensureAgentMessage e (messages st) ev) as [updated index].
  destruct (updated !! index) as [t|]; [|now destruct st].
  now destruct (truthy (Msg.finished (applyEvent ev t))).
Qed.

Lemma handleStreamEvent_other e ev st :
  Ev.conversationId ev <> conversationId st -> handleStreamEvent e ev st = st.
Proof.
  intros Hc. unfold handleStreamEvent.
  apply String.eqb_neq in Hc. now rewrite Hc.
Qed.

Lemma handleStreamEvent_conversationId e ev st :
  conversationId (handleStreamEvent e ev st) = conversationId st.
Proof.
  destruct (String.eqb_spec (Ev.conversationId ev) (conversationId st)) as [Hc|Hc].
  - now rewrite handleStreamEvent_active.
  - now rewrite handleStreamEvent_other.
Qed.

Lemma queueInv_deliver e ev ms : queueInv ms -> queueInv (deliver e ev ms).
Proof.
  intros Hinv. unfold deliver.
  pose proof (queueInv_ensureAgentMessage e ms ev Hinv) as Hens.
  destruct (ensureAgentMessage e ms ev) as [updated index]. simpl in Hens.
  destruct (updated !! index) as [t|] eqn:Ht; [|exact Hinv].
  assert (Hins : queueInv (<[index := applyEvent ev t]> updated)).
  { apply (queueInv_insert updated index t); auto using applyEvent_role,
      applyEvent_visible, applyEvent_finished_mono. }
  destruct (truthy (Msg.finished (applyEvent ev t)));
    [now apply queueInv_release | exact Hins].
Qed.

Lemma queueInv_handleStreamEvent e ev st :
  queueInv (messages st) -> queueInv (messages (handleStreamEvent e ev st)).
Proof.
  intros Hinv.
  destruct (String.eqb_spec (Ev.conversationId ev) (conversationId st)) as [Hc|Hc].
  - rewrite handleStreamEvent_active by exact Hc. now apply queueInv_deliver.
  - now rewrite handleStreamEvent_other.
Qed.

Lemma queueInv_submitPrompt e rawValue st :
  queueInv (messages st) -> queueInv (messages (submitPrompt e rawValue st)).
Proof.
  intros Hinv. unfold submitPrompt.
  destruct (String.eqb rawValue ""); [exact Hinv|]. simpl.
  apply queueInv_snoc; [exact Hinv | discriminate].
Qed.

Lemma queueInv_stopStreaming st :
  queueInv (messages st) -> queueInv (messages (stopStreaming st)).
Proof.
  intros Hinv. unfold stopStreaming.
  destruct (find isStreamingAgent (rev (messages st))) as [active|]; [|exact Hinv].
  destruct (negb (truthyString (Msg.responseId active))); [exact Hinv|]. simpl.
  destruct (findIndex _ (messages st)) as [index|]; [|exact Hinv].
  destruct (messages st !! index) as [m|] eqn:Hm; [|exact Hinv].
  apply queueInv_release.
  apply (queueInv_insert (messages st) index m); auto.
Qed.

Lemma queueInv_step st a :
  queueInv (messages st) -> queueInv (messages (step st a)).
Proof.
  destruct a; simpl;
    auto using queueInv_handleStreamEvent, queueInv_submitPrompt,
               queueInv_stopStreaming, queueInv_nil.
Qed.

Lemma queueInv_run actions st :
  queueInv (messages st) -> queueInv (messages (run st actions)).
Proof.
  revert st. induction actions as [|a actions IH]; intros st Hinv; [exact Hinv|].
  simpl. apply IH. now apply queueInv_step.
Qed.

Lemma queueInv_reachable cid actions :
  queueInv (messages (run (initial cid) actions)).
Proof. apply queueInv_run. exact queueInv_nil. Qed.

(** C1. Whatever has happened to the component since its construction
    (events delivered for any conversation, prompts submitted, responses
    stopped, chats restarted), after each step at most one agent message
    has [visible = true] and [finished] unset: the bound holds after every
    prefix [take n actions] of every history. *)
Theorem C1_single_shown_unfinished_agent :
  forall (cid : string) (actions : list Action) (n : nat),
    shownUnfinished (messages (run (initial cid) (take n actions))) <= 1.
Proof.
  intros cid actions n. apply queueInv_shownUnfinished, queueInv_reachable.
Qed.

(** ** The release of queued responses *)

Lemma find_rev_none_intro {A : Type} (p : A -> bool) (l : list A) :
  (forall j y, l !! j = Some y -> p y = false) -> find p (rev l) = None.
Proof.
  intros H. destruct (find p (rev l)) as [z|] eqn:Hf; [|reflexivity].
  destruct (find_rev_Some _ _ _ Hf) as (i & Hi & Hpz & _).
  rewrite (H i z Hi) in Hpz. discriminate.
Qed.

Lemma earliestHidden_findIndex ms h t :
  earliestHidden ms h t -> findIndex isHiddenAgent ms = Some h.
Proof. intros (Ht & Hhid & Hbefore). now apply (findIndex_first _ _ h t). Qed.

Lemma precedingAgent_find ms h o :
  precedingAgent ms h o -> find isAgent (rev (take h ms)) = o.
Proof.
  destruct o as [p|]; simpl.
  - intros (q & Hq & Hp & Ap & Hbetween).
    apply (find_rev_last _ _ q p); [now rewrite lookup_take_lt | exact Ap |].
    intros k y Hk Hy.
    assert (Hkh : k < h).
    { apply lookup_lt_Some in Hy. rewrite length_take in Hy. lia. }
    rewrite lookup_take_lt in Hy by exact Hkh. now apply (Hbetween k).
  - intros Hnone. apply find_rev_none_intro. intros j y Hy.
    assert (Hjh : j < h).
    { apply lookup_lt_Some in Hy. rewrite length_take in Hy. lia. }
    rewrite lookup_take_lt in Hy by exact Hjh. now apply (Hnone j).
Qed.

Lemma release_no_hidden ms :
  (forall j y, ms !! j = Some y -> isHiddenAgent y = false) ->
  releaseQueuedAgentResponses ms = ms.
Proof.
  intros H. unfold releaseQueuedAgentResponses.
  now rewrite (findIndex_none_intro _ _ H).
Qed.

Lemma release_earliest ms h t o :
  earliestHidden ms h t -> precedingAgent ms h o ->
  releaseQueuedAgentResponses ms =
  if match o with None => true | Some p => truthy (Msg.finished p) end
  then <[h := withVisible t true]> ms else ms.
Proof.
  intros He Hp. unfold releaseQueuedAgentResponses.
  rewrite (earliestHidden_findIndex _ _ _ He), (precedingAgent_find _ _ _ Hp).
  destruct He as (-> & _). reflexivity.
Qed.

Lemma existsb_true_exists {A : Type} (p : A -> bool) (l : list A) :
  existsb p l = true -> exists i x, l !! i = Some x /\ p x = true.
Proof.
  induction l as [|a l IH]; intros H; [discriminate|]. simpl in H.
  destruct (p a) eqn:Hp.
  - exists 0, a. auto.
  - simpl in H. destruct (IH H) as (i & x & Hx & Hpx). exists (S i), x. auto.
Qed.

(** Under the queue discipline, a hidden message that comes after an
    unfinished agent message is not released. *)
Lemma release_keeps_blocked ms a A b B :
  queueInv ms -> a < b ->
  ms !! a = Some A -> isUnfinishedAgent A = true ->
  ms !! b = Some B ->
  releaseQueuedAgentResponses ms !! b = Some B.
Proof.
  intros Hinv Hab HA HunfA HB.
  destruct (release_cases ms) as [->|(h & t & Hf & Ht & Hhid & Hbefore & Hprev & ->)];
    [exact HB|].
  destruct (Nat.eq_dec h b) as [->|Hne]; [|now rewrite list_lookup_insert_ne].
  exfalso. unfold isUnfinishedAgent in HunfA. apply andb_prop in HunfA as [AA FA].
  apply negb_true_iff in FA.
  destruct (Hprev a A Hab HA AA) as (p & Hp & Fp).
  destruct (find_rev_Some _ _ _ Hp) as (q & Hq & Ap & Hlast).
  assert (Hqb : q < b).
  { apply lookup_lt_Some in Hq. rewrite length_take in Hq. lia. }
  rewrite lookup_take_lt in Hq by exact Hqb.
  destruct (Nat.lt_trichotomy a q) as [Hlt|[->|Hgt]].
  - assert (truthy (Msg.finished A) = true); [|congruence].
    apply (Hinv a q A p); auto.
    specialize (Hbefore q p Hqb Hq). unfold isHiddenAgent in Hbefore.
    rewrite Ap in Hbefore. simpl in Hbefore. now destruct (Msg.visible p).
  - congruence.
  - assert (HA' : take b ms !! a = Some A) by (rewrite lookup_take_lt; auto).
    rewrite (Hlast a A Hgt HA') in AA. discriminate.
Qed.

(** A message created while an agent message is unfinished is still hidden
    once its first event has been handled. *)
Lemma deliver_new_hidden e ev ms :
  queueInv ms ->
  findIndex (matchesResponse ev) ms = None ->
  existsb isUnfinishedAgent ms = true ->
  exists B, deliver e ev ms !! length ms = Some B /\
            length (deliver e ev ms) = S (length ms) /\
            isAgent B = true /\
            Msg.responseId B = Ev.responseId ev /\
            Msg.visible B = false.
Proof.
  intros Hinv Hnew Hunf.
  unfold deliver, ensureAgentMessage. rewrite Hnew.
  rewrite lookup_app_r, Nat.sub_diag by lia. simpl.
  set (ins := insertion e ms ev).
  set (next := applyEvent ev ins).
  assert (Hnext : (<[length ms := next]> (ms ++ [ins])) !! length ms = Some next).
  { apply list_lookup_insert_eq. rewrite length_app. simpl. lia. }
  assert (Hfacts : isAgent next = true /\ Msg.responseId next = Ev.responseId ev
                   /\ Msg.visible next = false).
  { unfold next. rewrite applyEvent_role, applyEvent_responseId, applyEvent_visible.
    unfold ins. simpl. now rewrite Hunf. }
  assert (Hlen : length (<[length ms := next]> (ms ++ [ins])) = S (length ms)).
  { rewrite length_insert, length_app. simpl. lia. }
  assert (Hqi : queueInv (<[length ms := next]> (ms ++ [ins]))).
  { apply (queueInv_insert _ _ ins).
    - now apply queueInv_insertion.
    - rewrite lookup_app_r, Nat.sub_diag by lia. reflexivity.
    - apply applyEvent_role.
    - apply applyEvent_visible.
    - apply applyEvent_finished_mono. }
  destruct (truthy (Msg.finished next)).
  - destruct (existsb_true_exists _ _ Hunf) as (a & A & HA & HunfA).
    assert (Hal : a < length ms) by now apply lookup_lt_Some in HA.
    exists next. split; [|split; [|exact Hfacts]].
    + apply (release_keeps_blocked _ a A); auto.
      rewrite list_lookup_insert_ne by lia. now rewrite lookup_app_l.
    + destruct (release_cases (<[length ms := next]> (ms ++ [ins])))
        as [->|(h & t & _ & _ & _ & _ & _ & ->)]; [exact Hlen|].
      now rewrite length_insert.
  - exists next. auto.
Qed.

Lemma applyEvent_terminal ev t :
  isTerminalType (Ev.type ev) = true ->
  truthy (Msg.finished (applyEvent ev t)) = true.
Proof.
  unfold isTerminalType, applyEvent. intros H.
  destruct (String.eqb_spec (Ev.type ev) "response-start") as [Heq|_];
    [rewrite Heq in H; discriminate H|].
  destruct (String.eqb_spec (Ev.type ev) "response-token") as [Heq|_];
    [rewrite Heq in H; discriminate H|].
  destruct (String.eqb_spec (Ev.type ev) "response-status") as [Heq|_];
    [rewrite Heq in H; discriminate H|].
  destruct (String.eqb (Ev.type ev) "response-end"); [reflexivity|].
  destruct (String.eqb (Ev.type ev) "response-error"); [reflexivity|].
  destruct (String.eqb (Ev.type ev) "response-stop"); [reflexivity|].
  discriminate H.
Qed.

Lemma matchesResponse_agent ev m : matchesResponse ev m = true -> isAgent m = true.
Proof. unfold matchesResponse. intros H. now apply andb_prop in H as [_ H]. Qed.

Lemma isHiddenAgent_applyEvent ev t :
  isHiddenAgent (applyEvent ev t) = isHiddenAgent t.
Proof. unfold isHiddenAgent. now rewrite applyEvent_role, applyEvent_visible. Qed.

(** When the agent message just before the earliest hidden one receives a
    terminal event, the hidden one is shown. *)
Lemma deliver_finish_releases e ev ms a b B :
  findIndex (matchesResponse ev) ms = Some a ->
  isTerminalType (Ev.type ev) = true ->
  a < b -> earliestHidden ms b B ->
  (forall k y, a < k -> k < b -> ms !! k = Some y -> isAgent y = false) ->
  deliver e ev ms !! b = Some (withVisible B true).
Proof.
  intros Hf Hterm Hab (HB & HhidB & Hbefore) Hbetween.
  destruct (findIndex_Some _ _ _ Hf) as (A & HA & HmA & _).
  assert (Hal : a < length ms) by now apply lookup_lt_Some in HA.
  assert (Hbl : b < length ms) by now apply lookup_lt_Some in HB.
  unfold deliver, ensureAgentMessage. rewrite Hf, HA.
  set (next := applyEvent ev A).
  assert (Hfin : truthy (Msg.finished next) = true) by now apply applyEvent_terminal.
  rewrite Hfin.
  rewrite (release_earliest _ b B (Some next)).
  - rewrite Hfin. apply list_lookup_insert_eq. now rewrite length_insert.
  - split; [|split; [exact HhidB|]].
    + now rewrite list_lookup_insert_ne by lia.
    + intros j y Hj Hy. destruct (Nat.eq_dec a j) as [<-|Hne].
      * rewrite list_lookup_insert_eq in Hy by exact Hal. injection Hy as <-.
        unfold next. rewrite isHiddenAgent_applyEvent. now apply (Hbefore a).
      * rewrite list_lookup_insert_ne in Hy by exact Hne. now apply (Hbefore j).
  - exists a. split; [exact Hab|]. split; [now apply list_lookup_insert_eq|].
    split.
    + unfold next. rewrite applyEvent_role. now apply (matchesResponse_agent ev).
    + intros k y Hk1 Hk2 Hy. rewrite list_lookup_insert_ne in Hy by lia.
      now apply (Hbetween k).
Qed.

(** ** Queuing and release of concurrent responses *)

(** C2, as amended. In a state that obeys the queue discipline (every
    reachable state does) and holds an unfinished agent message, a message
    created by the first event of a new response is pushed with
    [visible = false] and is still hidden, last in the list, once that event
    has been handled.  Every event that leaves its target finished runs the
    release, and the release shows the earliest hidden agent message exactly
    when the agent message nearest before it is absent or finished, and
    changes nothing else.  In particular, when [B] is the earliest hidden
    agent message and [A] is the agent message nearest before it, a terminal
    event for [A] makes [B] visible. *)
Theorem C2_queued_response_hidden_then_released :
  forall (e : Env) (st : State) (evB : AgentStreamEvent),
    queueInv (messages st) ->
    Ev.conversationId evB = conversationId st ->
    findIndex (matchesResponse evB) (messages st) = None ->
    existsb isUnfinishedAgent (messages st) = true ->
    let b := length (messages st) in
    let st1 := handleStreamEvent e evB st in
    (Msg.visible (insertion e (messages st) evB) = false /\
     exists B, messages st1 !! b = Some B /\
               length (messages st1) = S b /\
               isAgent B = true /\
               Msg.responseId B = Ev.responseId evB /\
               Msg.visible B = false) /\
    (forall e' ev st' updated index target,
        Ev.conversationId ev = conversationId st' ->
        ensureAgentMessage e' (messages st') ev = (updated, index) ->
        updated !! index = Some target ->
        truthy (Msg.finished (applyEvent ev target)) = true ->
        messages (handleStreamEvent e' ev st') =
        releaseQueuedAgentResponses (<[index := applyEvent ev target]> updated)) /\
    (forall ms,
        (forall j y, ms !! j = Some y -> isHiddenAgent y = false) ->
        releaseQueuedAgentResponses ms = ms) /\
    (forall ms h t o,
        earliestHidden ms h t -> precedingAgent ms h o ->
        releaseQueuedAgentResponses ms =
        if match o with None => true | Some p => truthy (Msg.finished p) end
        then <[h := withVisible t true]> ms else ms) /\
    (forall e' evA a B,
        Ev.conversationId evA = conversationId st1 ->
        findIndex (matchesResponse evA) (messages st1) = Some a ->
        isTerminalType (Ev.type evA) = true ->
        a < b -> earliestHidden (messages st1) b B ->
        (forall k y, a < k -> k < b -> messages st1 !! k = Some y ->
                     isAgent y = false) ->
        messages (handleStreamEvent e' evA st1) !! b = Some (withVisible B true)).
Proof.
  intros e st evB Hinv Hc Hnew Hunf b st1.
  split; [split|split; [|split; [|split]]].
  - simpl. now rewrite Hunf.
  - unfold st1, b. rewrite handleStreamEvent_active by exact Hc. simpl.
    now apply deliver_new_hidden.
  - intros e' ev st' updated index target Hc' Hens Ht Hfin.
    rewrite handleStreamEvent_active by exact Hc'. simpl.
    unfold deliver. now rewrite Hens, Ht, Hfin.
  - exact release_no_hidden.
  - exact release_earliest.
  - intros e' evA a B Hc' Hf Hterm Hab Hearly Hbetween.
    rewrite handleStreamEvent_active by exact Hc'. simpl.
    now apply deliver_finish_releases with (a := a).
Qed.

(** The two-response scenario: ["A"] starts, ["B"] starts while ["A"] is
    unfinished and is hidden; ["A"] ends and ["B"] is shown. *)
Lemma C2_witness :
  let st := run (initial "c") [sampleDeliver "response-start" "A"] in
  let st1 := handleStreamEvent sampleEnv (sampleEvent "response-start" "B") st in
  let st2 := handleStreamEvent sampleEnv (sampleEvent "response-end" "A") st1 in
  existsb isUnfinishedAgent (messages st) = true /\
  (exists B, messages st1 !! 1 = Some B /\ Msg.visible B = false) /\
  (exists B, messages st2 !! 1 = Some B /\ Msg.visible B = true).
Proof.
  intros st st1 st2.
  assert (Hinv : queueInv (messages st)) by apply queueInv_reachable.
  destruct (C2_queued_response_hidden_then_released
              sampleEnv st (sampleEvent "response-start" "B")
              Hinv eq_refl eq_refl eq_refl)
    as ((_ & B & HB & _ & _ & _ & HvB) & _ & _ & _ & Hrel).
  split; [reflexivity|]. split.
  - exists B. split; [exact HB | exact HvB].
  - exists (withVisible B true). split; [|reflexivity].
    apply (Hrel sampleEnv (sampleEvent "response-end" "A") 0 B);
      [reflexivity | reflexivity | reflexivity | simpl; lia | |].
    + split; [exact HB|]. split.
      * vm_compute in HB. injection HB as <-. reflexivity.
      * intros j y Hj Hy. assert (j = 0) as -> by (simpl in Hj; lia).
        vm_compute in Hy. injection Hy as <-. reflexivity.
    + intros k y Hk1 Hk2. simpl in Hk2. lia.
Defined.

(** C2 as stated fails: in a reachable state, ["A"] is the only unfinished
    agent message and is shown, ["B"] is created hidden by its first event,
    ["A"] then finishes, and ["B"] is still hidden: the one release of that
    event went to the older hidden message ["r2"]. *)
Lemma C2_counterexample :
  let st := handleStreamEvent sampleEnv (sampleEvent "response-start" "A")
                              backlogState in
  let st1 := handleStreamEvent sampleEnv (sampleEvent "response-start" "B") st in
  let st2 := handleStreamEvent sampleEnv (sampleEvent "response-end" "A") st1 in
  (Msg.responseId <$> messages st !! 3) = Some (Id "A") /\
  (isShownUnfinished <$> messages st !! 3) = Some true /\
  shownUnfinished (messages st) = 1 /\
  (Msg.responseId <$> messages st1 !! 4) = Some (Id "B") /\
  (Msg.visible <$> messages st1 !! 4) = Some false /\
  (Msg.finished <$> messages st2 !! 3) = Some (Some true) /\
  (Msg.responseId <$> messages st2 !! 4) = Some (Id "B") /\
  (Msg.visible <$> messages st2 !! 4) = Some false /\
  ~ (Msg.visible <$> messages st2 !! 4) = Some true.
Proof. vm_compute. repeat split; discriminate. Qed.

(** ** One response from start to end *)

Lemma string_app_assoc (a b c : string) : ((a ++ b) ++ c = a ++ (b ++ c))%string.
Proof. induction a as [|x a IH]; simpl; [reflexivity | now rewrite IH]. Qed.

Lemma string_app_nil_r (a : string) : (a ++ "" = a)%string.
Proof. induction a as [|x a IH]; simpl; [reflexivity | now rewrite IH]. Qed.

Lemma withVisible_same m : withVisible m (Msg.visible m) = m.
Proof. now destruct m. Qed.

(** The release only ever touches visibility flags. *)
Lemma release_lookup ms i y :
  ms !! i = Some y ->
  exists v, releaseQueuedAgentResponses ms !! i = Some (withVisible y v).
Proof.
  intros Hy.
  destruct (release_cases ms) as [->|(h & t & _ & Ht & _ & _ & _ & ->)].
  - exists (Msg.visible y). now rewrite withVisible_same.
  - destruct (Nat.eq_dec h i) as [->|Hne].
    + exists true. rewrite list_lookup_insert_eq by now apply lookup_lt_Some in Ht.
      congruence.
    + exists (Msg.visible y). now rewrite list_lookup_insert_ne, withVisible_same.
Qed.

Lemma release_length ms : length (releaseQueuedAgentResponses ms) = length ms.
Proof.
  destruct (release_cases ms) as [->|(h & t & _ & _ & _ & _ & _ & ->)];
    [reflexivity | apply length_insert].
Qed.

Lemma matchesResponse_same_response ev ev' :
  Ev.responseId ev = Ev.responseId ev' ->
  matchesResponse ev = matchesResponse ev'.
Proof. intros H. unfold matchesResponse. now rewrite H. Qed.

Lemma matchesResponse_applyEvent ev ev' t :
  matchesResponse ev (applyEvent ev' t) = matchesResponse ev t.
Proof. unfold matchesResponse. now rewrite applyEvent_responseId, applyEvent_role. Qed.

Lemma accumulating_start e ev ms :
  findIndex (matchesResponse ev) ms = None ->
  Ev.type ev = "response-start" ->
  accumulating (Ev.responseId ev) (length ms) (orElse (Ev.content ev) "")
               (deliver e ev ms).
Proof.
  intros Hnew Hty. unfold deliver, ensureAgentMessage. rewrite Hnew.
  rewrite lookup_app_r, Nat.sub_diag by lia. simpl.
  set (ins := insertion e ms ev).
  assert (Hnext : applyEvent ev ins =
                  Msg.mk (Msg.id ins) Msg.agent (orElse (Ev.content ev) "")
                         (now e) (Ev.responseId ev)
                         (Some (orElse (Ev.status ev) thinking))
                         (Msg.tokens ins) (Some true) (Some false)
                         (Msg.visible ins)).
  { unfold applyEvent. rewrite Hty. reflexivity. }
  rewrite Hnext. simpl.
  assert (Hlen : length ms < length (ms ++ [ins]))
    by (rewrite length_app; simpl; lia).
  split.
  - intros ev' Hrid.
    rewrite (matchesResponse_same_response ev' ev Hrid).
    eapply findIndex_first.
    + now apply list_lookup_insert_eq.
    + unfold matchesResponse. simpl.
      destruct (Ev.responseId ev); simpl; try reflexivity; now rewrite String.eqb_refl.
    + intros j y Hj Hy. rewrite list_lookup_insert_ne in Hy by lia.
      rewrite lookup_app_l in Hy by exact Hj.
      now apply (findIndex_None _ _ Hnew j).
  - eexists. split; [now apply list_lookup_insert_eq|]. split; reflexivity.
Qed.

Lemma accumulating_token e ev n c ms :
  accumulating (Ev.responseId ev) n c ms ->
  Ev.type ev = "response-token" ->
  accumulating (Ev.responseId ev) n (c ++ tokenText ev)%string (deliver e ev ms).
Proof.
  intros (Hfind & m & Hm & Hfin & Hc) Hty.
  assert (Hn : n < length ms) by now apply lookup_lt_Some in Hm.
  unfold deliver, ensureAgentMessage. rewrite (Hfind ev eq_refl), Hm.
  assert (Hnext : applyEvent ev m =
                  Msg.mk (Msg.id m) (Msg.role m) (c ++ tokenText ev)%string
                         (Msg.createdAt m) (Msg.responseId m) (Some streaming)
                         (Some (orElse (Msg.tokens m) [] ++ [tokenText ev]))
                         (Some true) (Some false) (Msg.visible m)).
  { unfold applyEvent. rewrite Hty, Hfin, Hc. reflexivity. }
  assert (Hunf : truthy (Msg.finished (applyEvent ev m)) = false)
    by now rewrite Hnext.
  rewrite Hunf. split.
  - intros ev' Hrid. rewrite <- (Hfind ev' Hrid).
    apply findIndex_agree; [apply length_insert|].
    intros j x y Hx Hy. destruct (Nat.eq_dec n j) as [<-|Hne].
    + rewrite list_lookup_insert_eq in Hx by exact Hn. injection Hx as <-.
      rewrite matchesResponse_applyEvent. congruence.
    + rewrite list_lookup_insert_ne in Hx by exact Hne. congruence.
  - exists (applyEvent ev m). split; [now apply list_lookup_insert_eq|].
    now rewrite Hnext.
Qed.

Lemma accumulating_end e ev n c ms :
  accumulating (Ev.responseId ev) n c ms ->
  Ev.type ev = "response-end" ->
  exists m, deliver e ev ms !! n = Some m /\
            isAgent m = true /\
            Msg.responseId m = Ev.responseId ev /\
            Msg.finished m = Some true /\
            Msg.isStreaming m = Some false /\
            Msg.content m = orElse (Ev.content ev) c.
Proof.
  intros (Hfind & m & Hm & Hfin & Hc) Hty.
  assert (Hn : n < length ms) by now apply lookup_lt_Some in Hm.
  destruct (findIndex_Some _ _ _ (Hfind ev eq_refl)) as (m' & Hm' & Hmatch & _).
  assert (m' = m) as -> by congruence.
  unfold matchesResponse in Hmatch. apply andb_prop in Hmatch as [Hrid Hagent].
  assert (Hrid' : Msg.responseId m = Ev.responseId ev).
  { unfold strictEq in Hrid.
    destruct (Msg.responseId m), (Ev.responseId ev); try discriminate; auto.
    apply String.eqb_eq in Hrid. now subst. }
  unfold deliver, ensureAgentMessage. rewrite (Hfind ev eq_refl), Hm.
  assert (Hnext : applyEvent ev m =
                  Msg.mk (Msg.id m) (Msg.role m) (orElse (Ev.content ev) c)
                         (Msg.createdAt m) (Msg.responseId m)
                         (Some (orElse (Ev.status ev) completed))
                         (Msg.tokens m) (Some false) (Some true) (Msg.visible m)).
  { unfold applyEvent. rewrite Hty, Hc. reflexivity. }
  rewrite Hnext. simpl.
  match goal with
  | |- context [releaseQueuedAgentResponses ?l] =>
      destruct (release_lookup l n _ (list_lookup_insert_eq _ _ _ Hn)) as (v & Hv)
  end.
  eexists. split; [exact Hv|]. simpl. auto.
Qed.

Lemma run_cons st a actions : run st (a :: actions) = run (step st a) actions.
Proof. reflexivity. Qed.

Lemma run_app st l1 l2 : run st (l1 ++ l2) = run (run st l1) l2.
Proof. unfold run. apply fold_left_app. Qed.

Lemma accumulating_tokens rid toks :
  forall st n c,
    accumulating rid n c (messages st) ->
    Forall (isFor (conversationId st) rid "response-token") (map snd toks) ->
    accumulating rid n (c ++ joinTokens (map snd toks))%string
                 (messages (run st (deliverAll toks))) /\
    conversationId (run st (deliverAll toks)) = conversationId st.
Proof.
  induction toks as [|[e ev] toks IH]; intros st n c Hacc Hall; simpl.
  - now rewrite string_app_nil_r.
  - simpl in Hall. apply Forall_cons in Hall as [(Hc & Hrid & Hty) Hall].
    rewrite handleStreamEvent_active by exact Hc.
    destruct (IH (setMessages st (deliver e ev (messages st))) n
                 (c ++ tokenText ev)%string) as [Hacc' Hcid].
    + simpl. subst rid. now apply accumulating_token.
    + exact Hall.
    + split; [|exact Hcid]. now rewrite <- string_app_assoc.
Qed.

(** C3, as amended. For a response id that has no message yet, the events
    response-start, any number of response-token, response-end, all of the
    active conversation and of that response id, leave at the end of the
    former list an agent message with [finished = true],
    [isStreaming = false], and content equal to the end event's [content]
    if it has one, else to the start event's [content] (empty when absent)
    followed by the token fields in arrival order. *)
Theorem C3_start_tokens_end :
  forall (st : State) (rid : ResponseId)
         (e0 : Env) (start : AgentStreamEvent)
         (toks : list (Env * AgentStreamEvent))
         (e1 : Env) (end_ : AgentStreamEvent),
    findIndex (matchesResponse start) (messages st) = None ->
    isFor (conversationId st) rid "response-start" start ->
    Forall (isFor (conversationId st) rid "response-token") (map snd toks) ->
    isFor (conversationId st) rid "response-end" end_ ->
    exists m,
      messages (run st (Deliver e0 start :: deliverAll toks ++ [Deliver e1 end_]))
        !! length (messages st) = Some m /\
      isAgent m = true /\
      Msg.responseId m = rid /\
      Msg.finished m = Some true /\
      Msg.isStreaming m = Some false /\
      Msg.content m =
        match Ev.content end_ with
        | Some c => c
        | None => (orElse (Ev.content start) "" ++ joinTokens (map snd toks))%string
        end.
Proof.
  intros st rid e0 start toks e1 end_ Hnew (Hc0 & Hr0 & Ht0) Htoks (Hc1 & Hr1 & Ht1).
  rewrite run_cons, run_app.
  change (step st (Deliver e0 start)) with (handleStreamEvent e0 start st).
  rewrite handleStreamEvent_active by exact Hc0.
  pose proof (accumulating_start e0 start (messages st) Hnew Ht0) as Hacc.
  rewrite Hr0 in Hacc.
  destruct (accumulating_tokens rid toks
              (setMessages st (deliver e0 start (messages st)))
              _ _ Hacc Htoks) as [Hacc' Hcid].
  simpl in Hcid |- *.
  rewrite handleStreamEvent_active by congruence. simpl.
  rewrite <- Hr1 in Hacc'.
  destruct (accumulating_end e1 end_ _ _ _ Hacc' Ht1)
    as (m & Hm & Ha & Hr & Hf & Hs & Hcont).
  exists m. split; [exact Hm|]. split; [exact Ha|]. split; [congruence|].
  split; [exact Hf|]. split; [exact Hs|].
  rewrite Hcont. now destruct (Ev.content end_).
Qed.

(** The scenario of the specification: start, token ["Hi"], end with
    content ["Hi there"]. *)
Lemma C3_witness :
  exists m,
    messages (run (initial "c")
                  [ sampleDeliver "response-start" "r1";
                    Deliver sampleEnv
                      (Ev.mk "c" (Id "r1") "response-token" None (Some "Hi")
                             None None);
                    Deliver sampleEnv
                      (Ev.mk "c" (Id "r1") "response-end" None None None
                             (Some "Hi there")) ])
      !! 0 = Some m /\
    Msg.finished m = Some true /\ Msg.isStreaming m = Some false /\
    Msg.content m = "Hi there".
Proof.
  destruct (C3_start_tokens_end
              (initial "c") (Id "r1")
              sampleEnv (sampleEvent "response-start" "r1")
              [(sampleEnv,
                Ev.mk "c" (Id "r1") "response-token" None (Some "Hi") None None)]
              sampleEnv
              (Ev.mk "c" (Id "r1") "response-end" None None None
                     (Some "Hi there")))
    as (m & Hm & _ & _ & Hf & Hs & Hc).
  - reflexivity.
  - repeat split.
  - repeat constructor.
  - repeat split.
  - exists m. repeat split; assumption.
Defined.

(** C3 as stated fails when the start event itself carries [content]: with
    no token and an end event without [content], the message keeps the start
    event's content, not the (empty) concatenation of the tokens. *)
Lemma C3_counterexample :
  let start := Ev.mk "c" (Id "r1") "response-start" None None None (Some "X") in
  let end_ := Ev.mk "c" (Id "r1") "response-end" None None None None in
  let st := run (initial "c") [Deliver sampleEnv start; Deliver sampleEnv end_] in
  (Msg.finished <$> messages st !! 0) = Some (Some true) /\
  (Msg.content <$> messages st !! 0) = Some "X" /\
  Ev.content end_ = None /\
  joinTokens [] = "" /\
  (Msg.content <$> messages st !! 0) <> Some (joinTokens []).
Proof. vm_compute. repeat split; discriminate. Qed.

(** ** The streaming flag *)













(** ** The celebration event *)

Lemma applyEvent_celebration ev t :
  Ev.type ev = "response-celebration" -> applyEvent ev t = t.
Proof. intros Hty. unfold applyEvent. rewrite Hty. reflexivity. Qed.

(** C5, the code at the failing input. A response-celebration event for an
    existing, streaming agent message of the active conversation changes
    nothing: the status stays ['streaming'] instead of becoming
    ['celebrating'] (and [finished] stays unset). *)
Theorem C5_celebration_leaves_status :
  let st := run (initial "c") [ sampleDeliver "response-start" "r1";
                                sampleDeliver "response-token" "r1" ] in
  let st' := handleStreamEvent sampleEnv
               (sampleEvent "response-celebration" "r1") st in
  (Msg.status <$> messages st !! 0) = Some (Some streaming) /\
  (Msg.status <$> messages st' !! 0) = Some (Some streaming) /\
  (Msg.status <$> messages st' !! 0) <> Some (Some celebrating) /\
  (Msg.finished <$> messages st' !! 0) = Some (Some false) /\
  st' = st.
Proof. vm_compute. repeat split; discriminate. Qed.

(** ** The dispatcher *)

Section Dispatcher.
Import AiStreamService.

Lemma prefix_append (a s : string) :
  String.prefix a s = true <-> exists rest, s = (a ++ rest)%string.
Proof.
  revert s. induction a as [|x a IH]; intros s; simpl.
  - destruct s; split; eauto.
  - destruct s as [|y s]; simpl.
    + split; [discriminate | intros [rest H]; discriminate].
    + destruct (ascii_dec x y) as [->|Hne].
      * rewrite IH. split; intros [rest H]; exists rest; congruence.
      * split; [discriminate | intros [rest H]; congruence].
Qed.

Lemma recognized_types_prefixed s :
  In s AgentStreamEventType -> String.prefix "response" s = true.
Proof.
  unfold AgentStreamEventType. simpl.
  intros [<-|[<-|[<-|[<-|[<-|[<-|[<-|[]]]]]]]]; reflexivity.
Qed.

(** C6, as amended. The dispatcher emits an event exactly when the payload
    is an object whose [type] is a string that starts with ["response"], and
    then emits that payload unchanged; the seven recognized types all pass.
    A [null] or otherwise falsy payload, an object without [type], one whose
    [type] is not a string, and one whose [type] does not start with
    ["response"] are dropped, with nothing emitted and no error.  A payload
    that is a truthy primitive (a non-empty string, a non-zero number,
    [true]), and no other, makes [dispatch] throw a [TypeError]. *)
Theorem C6_dispatch_by_response_prefix :
  (forall payload ev,
      dispatch payload = Emitted ev <->
      exists p rest,
        payload = DecodedObject p /\
        p_type p = TypeString ("response" ++ rest) /\
        ev = asEvent p ("response" ++ rest)) /\
  (forall p s,
      In s AgentStreamEventType -> p_type p = TypeString s ->
      dispatch (DecodedObject p) = Emitted (asEvent p s)) /\
  (forall payload,
      dispatch payload = ThrowsTypeError <->
      isFalsy payload = false /\ isObject payload = false) /\
  (forall payload, isFalsy payload = true -> dispatch payload = Dropped) /\
  (forall p, p_type p = TypeMissing -> dispatch (DecodedObject p) = Dropped) /\
  (forall p, p_type p = TypeOther -> dispatch (DecodedObject p) = Dropped) /\
  (forall p s, p_type p = TypeString s -> String.prefix "response" s = false ->
               dispatch (DecodedObject p) = Dropped).
Proof.
  split; [|split; [|split; [|split; [|split; [|split]]]]].
  - intros payload ev. unfold dispatch. split.
    + destruct (isFalsy payload); [discriminate|].
      destruct payload as [|b|z|str|p]; try discriminate.
      destruct (p_type p) as [|s|] eqn:Hty; try discriminate.
      destruct (String.prefix "response" s) eqn:Hpre; [|discriminate].
      intros H. injection H as <-.
      apply prefix_append in Hpre as [rest ->]. eauto.
    + intros (p & rest & -> & Hty & ->). simpl. rewrite Hty.
      assert (Hpre : String.prefix "response" ("response" ++ rest) = true)
        by (apply prefix_append; eauto).
      now rewrite Hpre.
  - intros p s Hin Hty. unfold dispatch. simpl.
    now rewrite Hty, (recognized_types_prefixed s Hin).
  - intros payload. unfold dispatch.
    destruct (isFalsy payload); [split; [discriminate | intros [H _]; discriminate]|].
    destruct payload as [|b|z|str|p]; simpl; try (split; auto; fail).
    split; [|intros [_ H]; discriminate].
    destruct (p_type p) as [|s|]; try discriminate.
    destruct (String.prefix "response" s); discriminate.
  - intros payload Hf. unfold dispatch. now rewrite Hf.
  - intros p Hty. unfold dispatch. simpl. now rewrite Hty.
  - intros p Hty. unfold dispatch. simpl. now rewrite Hty.
  - intros p s Hty Hpre. unfold dispatch. simpl. now rewrite Hty, Hpre.
Qed.

Lemma C6_witness :
  dispatch (DecodedObject (samplePayload (TypeString "response-token"))) =
    Emitted (sampleEvent "response-token" "r1") /\
  dispatch (DecodedObject (samplePayload (TypeString "user-message"))) = Dropped /\
  dispatch (DecodedObject (samplePayload TypeMissing)) = Dropped /\
  dispatch DecodedNull = Dropped /\
  dispatch (DecodedNumber false) = ThrowsTypeError.
Proof.
  destruct C6_dispatch_by_response_prefix
    as (_ & Hok & Hthrow & Hfalsy & Hmiss & _ & Hbad).
  split; [|split; [|split; [|split]]].
  - apply (Hok (samplePayload (TypeString "response-token")) "response-token");
      [simpl; auto | reflexivity].
  - apply (Hbad (samplePayload (TypeString "user-message")) "user-message");
      reflexivity.
  - apply (Hmiss (samplePayload TypeMissing)). reflexivity.
  - apply Hfalsy. reflexivity.
  - apply Hthrow. split; reflexivity.
Defined.

(** C6 as stated fails twice: a payload whose [type] is ["response-foo"],
    which is none of the seven recognized types, is emitted; and the decoded
    frame ["ping"] (a JSON string), which carries no [type] at all, is not
    rejected quietly: [dispatch] throws. *)
Lemma C6_counterexample :
  ~ In "response-foo" AgentStreamEventType /\
  dispatch (DecodedObject (samplePayload (TypeString "response-foo"))) =
    Emitted (sampleEvent "response-foo" "r1") /\
  dispatch (DecodedObject (samplePayload (TypeString "response-foo"))) <> Dropped /\
  dispatch (DecodedString "ping") = ThrowsTypeError.
Proof.
  split; [|split; [reflexivity | split; [discriminate | reflexivity]]].
  unfold AgentStreamEventType. simpl.
  intros [H|[H|[H|[H|[H|[H|[H|[]]]]]]]]; discriminate H.
Qed.

End Dispatcher.

(** ** Starting a new chat *)

Lemma submitPrompt_conversationId e rawValue st :
  conversationId (submitPrompt e rawValue st) = conversationId st.
Proof. unfold submitPrompt. now destruct (String.eqb rawValue ""). Qed.

Lemma stopStreaming_conversationId st :
  conversationId (stopStreaming st) = conversationId st.
Proof.
  unfold stopStreaming.
  destruct (find isStreamingAgent (rev (messages st))) as [active|]; [|reflexivity].
  now destruct (negb (truthyString (Msg.responseId active))).
Qed.

Lemma run_avoids_conversation old actions :
  forall st, conversationId st <> old -> avoidsConversation old actions ->
             conversationId (run st actions) <> old.
Proof.
  induction actions as [|a actions IH]; intros st Hst Hav; [exact Hst|].
  apply Forall_cons in Hav as [Ha Hav]. rewrite run_cons. apply IH; [|exact Hav].
  destruct a as [e ev|e rawValue| |c]; simpl.
  - now rewrite handleStreamEvent_conversationId.
  - now rewrite submitPrompt_conversationId.
  - now rewrite stopStreaming_conversationId.
  - exact Ha.
Qed.

(** C7. Starting a new chat with a fresh identifier (one that differs from
    the current one) installs that identifier and empties the message list;
    from then on, whatever else happens short of reusing the old identifier,
    an event that carries the old conversation identifier leaves the state
    as it is. *)
Theorem C7_new_chat_ignores_old_conversation :
  forall (st : State) (fresh : string),
    fresh <> conversationId st ->
    conversationId (startNewChat fresh st) = fresh /\
    messages (startNewChat fresh st) = [] /\
    forall (actions : list Action) (e : Env) (ev : AgentStreamEvent),
      avoidsConversation (conversationId st) actions ->
      Ev.conversationId ev = conversationId st ->
      handleStreamEvent e ev (run (startNewChat fresh st) actions) =
      run (startNewChat fresh st) actions.
Proof.
  intros st fresh Hfresh. split; [reflexivity|]. split; [reflexivity|].
  intros actions e ev Hav Hold. apply handleStreamEvent_other.
  rewrite Hold. apply not_eq_sym.
  now apply run_avoids_conversation.
Qed.

Lemma C7_witness :
  let st := run (initial "c") [sampleDeliver "response-start" "r1"] in
  let st' := startNewChat "d" st in
  messages st' = [] /\
  handleStreamEvent sampleEnv (sampleEvent "response-token" "r1") st' = st'.
Proof.
  intros st st'.
  assert (Hfresh : "d" <> conversationId st) by discriminate.
  destruct (C7_new_chat_ignores_old_conversation st "d" Hfresh) as (_ & Hm & Hev).
  split; [exact Hm|].
  apply (Hev [] sampleEnv (sampleEvent "response-token" "r1"));
    [constructor | reflexivity].
Defined.

(** ** Delivering a status event twice *)

Lemma matchesResponse_withVisible ev m v :
  matchesResponse ev (withVisible m v) = matchesResponse ev m.
Proof. reflexivity. Qed.

Lemma findIndex_release_matches ev ms :
  findIndex (matchesResponse ev) (releaseQueuedAgentResponses ms) =
  findIndex (matchesResponse ev) ms.
Proof.
  apply findIndex_agree; [apply release_length|].
  intros j x y Hx Hy. destruct (release_lookup ms j y Hy) as (v & Hv).
  assert (x = withVisible y v) as -> by congruence.
  apply matchesResponse_withVisible.
Qed.

Lemma applyEvent_withVisible ev t v :
  applyEvent ev (withVisible t v) = withVisible (applyEvent ev t) v.
Proof. by_event_type; reflexivity. Qed.

Lemma applyEvent_status_idem ev t :
  Ev.type ev = "response-status" ->
  applyEvent ev (applyEvent ev t) = applyEvent ev t.
Proof.
  intros Hty. unfold applyEvent. rewrite Hty. simpl.
  now destruct (Ev.status ev).
Qed.

Lemma insertion_matches e ms ev : matchesResponse ev (insertion e ms ev) = true.
Proof.
  unfold matchesResponse, insertion. simpl.
  destruct (Ev.responseId ev); simpl; try reflexivity; now rewrite String.eqb_refl.
Qed.

(** [ensureAgentMessage] returns the index of the first message that
    matches the event, in the array it returns. *)
Lemma ensureAgentMessage_found e ms ev :
  findIndex (matchesResponse ev) (fst (ensureAgentMessage e ms ev)) =
    Some (snd (ensureAgentMessage e ms ev)) /\
  exists t, fst (ensureAgentMessage e ms ev) !! snd (ensureAgentMessage e ms ev)
            = Some t.
Proof.
  destruct (ensureAgentMessage_cases e ms ev) as [(i & Hf & ->)|[Hf ->]]; simpl.
  - split; [exact Hf|]. destruct (findIndex_Some _ _ _ Hf) as (t & Ht & _). eauto.
  - assert (Hl : (ms ++ [insertion e ms ev]) !! length ms
                 = Some (insertion e ms ev)).
    { rewrite lookup_app_r, Nat.sub_diag by lia. reflexivity. }
    split; [|eauto].
    apply (findIndex_first _ _ _ _ Hl (insertion_matches e ms ev)).
    intros j y Hj Hy. rewrite lookup_app_l in Hy by exact Hj.
    now apply (findIndex_None _ _ Hf j).
Qed.

(** After a delivery, the event's message is found in place, and it is the
    updated target up to its visibility. *)
Lemma deliver_target e ev ms :
  exists i t v,
    findIndex (matchesResponse ev) (deliver e ev ms) = Some i /\
    deliver e ev ms !! i = Some (withVisible (applyEvent ev t) v).
Proof.
  unfold deliver.
  destruct (ensureAgentMessage_found e ms ev) as (Hf & t & Ht).
  destruct (ensureAgentMessage e ms ev) as [updated index]. simpl in Hf, Ht.
  rewrite Ht. exists index, t.
  assert (Hi : index < length updated) by now apply lookup_lt_Some in Ht.
  assert (Hl : <[index := applyEvent ev t]> updated !! index
               = Some (applyEvent ev t)) by now apply list_lookup_insert_eq.
  assert (Hfi : findIndex (matchesResponse ev) (<[index := applyEvent ev t]> updated)
                = Some index).
  { rewrite <- Hf. apply findIndex_agree; [apply length_insert|].
    intros j x y Hx Hy. destruct (Nat.eq_dec index j) as [<-|Hne].
    - rewrite Hl in Hx. injection Hx as <-.
      rewrite matchesResponse_applyEvent. congruence.
    - rewrite list_lookup_insert_ne in Hx by exact Hne. congruence. }
  destruct (truthy (Msg.finished (applyEvent ev t))).
  - destruct (release_lookup _ _ _ Hl) as (v & Hv). exists v.
    now rewrite findIndex_release_matches.
  - exists (Msg.visible (applyEvent ev t)). now rewrite withVisible_same.
Qed.

Lemma deliver_status_again e1 e2 ev ms :
  Ev.type ev = "response-status" ->
  deliver e2 ev (deliver e1 ev ms) =
  if targetFinished ev (deliver e1 ev ms)
  then releaseQueuedAgentResponses (deliver e1 ev ms)
  else deliver e1 ev ms.
Proof.
  intros Hty. destruct (deliver_target e1 ev ms) as (i & t & v & Hf & Ht).
  unfold targetFinished. rewrite Hf, Ht.
  unfold deliver at 1. unfold ensureAgentMessage. rewrite Hf, Ht.
  rewrite applyEvent_withVisible, applyEvent_status_idem by exact Hty.
  now rewrite (list_insert_id _ _ _ Ht).
Qed.

(** C8, as amended. Delivering the same response-status event a second
    time changes nothing but, when the event's message is finished, runs the
    release of queued responses once more.  The second delivery is therefore
    a no-op whenever the event belongs to another conversation, or its
    message is unfinished, or no agent message is hidden. *)
Theorem C8_status_redelivery :
  forall (e1 e2 : Env) (ev : AgentStreamEvent) (st : State),
    Ev.type ev = "response-status" ->
    let st1 := handleStreamEvent e1 ev st in
    handleStreamEvent e2 ev st1 =
      (if String.eqb (Ev.conversationId ev) (conversationId st)
          && targetFinished ev (messages st1)
       then setMessages st1 (releaseQueuedAgentResponses (messages st1))
       else st1) /\
    (Ev.conversationId ev <> conversationId st -> handleStreamEvent e2 ev st1 = st1) /\
    (targetFinished ev (messages st1) = false -> handleStreamEvent e2 ev st1 = st1) /\
    ((forall j y, messages st1 !! j = Some y -> isHiddenAgent y = false) ->
     handleStreamEvent e2 ev st1 = st1).
Proof.
  intros e1 e2 ev st Hty st1.
  assert (Hmain : handleStreamEvent e2 ev st1 =
      (if String.eqb (Ev.conversationId ev) (conversationId st)
          && targetFinished ev (messages st1)
       then setMessages st1 (releaseQueuedAgentResponses (messages st1))
       else st1)).
  { unfold st1.
    destruct (String.eqb_spec (Ev.conversationId ev) (conversationId st)) as [Hc|Hc].
    - rewrite (handleStreamEvent_active e1) by exact Hc.
      rewrite handleStreamEvent_active by exact Hc. simpl.
      rewrite deliver_status_again by exact Hty.
      now destruct (targetFinished ev (deliver e1 ev (messages st))).
    - rewrite (handleStreamEvent_other e1) by exact Hc.
      now rewrite handleStreamEvent_other. }
  split; [exact Hmain|]. split; [|split].
  - intros Hc. rewrite Hmain. apply String.eqb_neq in Hc. now rewrite Hc.
  - intros Hfin. rewrite Hmain, Hfin. now rewrite andb_false_r.
  - intros Hnone. rewrite Hmain, (release_no_hidden _ Hnone).
    destruct (_ && _); [now destruct st1 | reflexivity].
Qed.

Lemma C8_witness :
  let st := run (initial "c") [sampleDeliver "response-start" "r1"] in
  let ev := Ev.mk "c" (Id "r1") "response-status" (Some thinking)
                  None None None in
  handleStreamEvent sampleEnv ev (handleStreamEvent sampleEnv ev st) =
  handleStreamEvent sampleEnv ev st.
Proof.
  intros st ev.
  destruct (C8_status_redelivery sampleEnv sampleEnv ev st eq_refl)
    as (_ & _ & Hunf & _).
  apply Hunf. reflexivity.
Defined.

(** C8 as stated fails: in a reachable state with two hidden messages
    waiting behind finished ones, the first delivery of a status event for
    the finished message ["r0"] shows ["r2"], and the second delivery shows
    ["r3"] as well. *)
Lemma C8_counterexample :
  let once := handleStreamEvent sampleEnv (statusCompleted "r0") stalledState in
  let twice := handleStreamEvent sampleEnv (statusCompleted "r0") once in
  (Msg.visible <$> messages once !! 3) = Some false /\
  (Msg.visible <$> messages twice !! 3) = Some true /\
  messages twice <> messages once /\
  twice <> once.
Proof.
  split; [reflexivity|]. split; [reflexivity|].
  assert (H : messages (handleStreamEvent sampleEnv (statusCompleted "r0")
                (handleStreamEvent sampleEnv (statusCompleted "r0") stalledState))
              <> messages (handleStreamEvent sampleEnv (statusCompleted "r0")
                             stalledState)).
  { intros H. apply (f_equal (fun ms => Msg.visible <$> ms !! 3)) in H.
    vm_compute in H. discriminate H. }
  split; [exact H|]. intros Heq. apply H. now rewrite Heq.
Qed.

(** ** Manual disconnect *)

Section Disconnect.
Import AiStreamService.

Lemma serviceRun_cons b u s ev evs :
  serviceRun b u s (ev :: evs) = serviceRun b u (serviceStep b u s ev) evs.
Proof. reflexivity. Qed.

Lemma serviceRun_invariant (P : Service -> Prop) b u :
  (forall s ev, P s -> P (serviceStep b u s ev)) ->
  forall evs s, P s -> P (serviceRun b u s evs).
Proof.
  intros Hstep evs. induction evs as [|ev evs IH]; intros s Hs; [exact Hs|].
  rewrite serviceRun_cons. apply IH, Hstep, Hs.
Qed.





End Disconnect.

(** ** Stopping from the user interface *)

Lemma unique_id_index (ms : list ConversationMessage) i j x y :
  NoDup (Msg.id <$> ms) -> ms !! i = Some x -> ms !! j = Some y ->
  Msg.id x = Msg.id y -> i = j.
Proof.
  intros Hnd Hx Hy Hid.
  apply (NoDup_lookup (Msg.id <$> ms) i j (Msg.id x) Hnd).
  - now rewrite list_lookup_fmap, Hx.
  - now rewrite list_lookup_fmap, Hy, Hid.
Qed.

Lemma latestStreaming_find ms i active :
  latestStreaming ms i active -> find isStreamingAgent (rev ms) = Some active.
Proof. intros (Hi & Hs & Hlast). now apply (find_rev_last _ _ i). Qed.

(** * Further properties of the code *)

(** ** The connection life cycle *)

Section Connection.
Import AiStreamService.

(** Without a configured socket URL the service never opens a socket,
    whatever happens to it, and every command it is asked to send is
    dropped. *)
Theorem service_without_url_never_connects :
  forall (isPlatformBrowser : bool) (evs : list ServiceEvent)
         (command : AgentSocketCommand) (log : list AgentSocketCommand),
    let s := serviceRun isPlatformBrowser false
                        (constructed isPlatformBrowser false) evs in
    socket s = false /\ opened s = 0 /\
    sendCommand false command (s, log) = (s, log).
Proof.
  intros b evs command log s.
  assert (H : socket s = false /\ opened s = 0).
  { unfold s. apply serviceRun_invariant.
    - intros s0 ev [Hs Ho]. destruct ev; simpl; auto.
      + unfold handleDisconnect, scheduleReconnect.
        destruct (manualClose s0); simpl; auto.
        destruct (reconnectTimer s0 || negb b); simpl; auto.
      + unfold handleError, scheduleReconnect. simpl.
        destruct (reconnectTimer s0 || negb b); simpl; auto.
      + unfold timerFires. destruct (reconnectTimer s0); simpl; auto.
      + unfold send. destruct (_ || _); simpl; auto.
    - unfold constructed. destruct b; simpl; auto. }
  destruct H as [Hs Ho]. clearbody s. repeat split; auto.
  unfold sendCommand, send, connect. simpl fst. simpl snd. simpl negb.
  destruct (_ || _); now rewrite Hs.
Qed.

(** Outside a browser no reconnect timer is ever armed. *)
Theorem service_outside_browser_never_arms_timer :
  forall (agentSocketUrl : bool) (evs : list ServiceEvent),
    reconnectTimer (serviceRun false agentSocketUrl
                               (constructed false agentSocketUrl) evs) = false.
Proof.
  intros u evs. apply serviceRun_invariant; [|reflexivity].
  intros s ev Hs. destruct ev; simpl; auto.
  - unfold handleDisconnect, scheduleReconnect.
    destruct (manualClose s); simpl; auto. now rewrite Hs.
  - unfold handleError, scheduleReconnect. simpl. now rewrite Hs.
  - unfold timerFires. now rewrite Hs.
  - unfold send, connect. destruct (_ || _); auto. now destruct (negb u).
Qed.

(** A failure that is reported again (an error followed by the close of
    the same socket, or several errors) does not arm a second timer nor
    change anything else. *)
Theorem service_failure_reported_once :
  forall (isPlatformBrowser : bool) (s : Service),
    manualClose s = false ->
    handleDisconnect isPlatformBrowser (handleError isPlatformBrowser s)
      = handleError isPlatformBrowser s /\
    handleError isPlatformBrowser (handleError isPlatformBrowser s)
      = handleError isPlatformBrowser s /\
    handleError isPlatformBrowser (handleDisconnect isPlatformBrowser s)
      = handleDisconnect isPlatformBrowser s /\
    handleDisconnect isPlatformBrowser s = handleError isPlatformBrowser s.
Proof.
  intros b [so c t m o] Hm. simpl in Hm. subst m.
  unfold handleDisconnect, handleError, scheduleReconnect, setState. simpl.
  destruct t, b; simpl; auto.
Qed.

Lemma service_failure_reported_once_witness :
  handleDisconnect true (handleError true initial) = handleError true initial.
Proof.
  destruct (service_failure_reported_once true initial eq_refl) as [H _].
  exact H.
Defined.

(** The reconnect cycle in a browser with a configured URL, when no manual
    close is pending ([manualClose] is false): an abnormal close leaves the
    service disconnected with a timer pending and no new socket; when the timer runs out exactly one socket is opened, the timer
    is gone, and the state is ['reconnecting'] if a socket object was still
    held, ['connecting'] otherwise; a stray second run of the callback does
    nothing. *)
Theorem service_reconnect_cycle :
  forall (s : Service),
    manualClose s = false ->
    let s1 := handleDisconnect true s in
    let s2 := timerFires true s1 in
    (reconnectTimer s1 = true /\ connectionState s1 = disconnected /\
     opened s1 = opened s /\ socket s1 = socket s) /\
    (socket s2 = true /\ opened s2 = S (opened s) /\
     reconnectTimer s2 = false /\
     connectionState s2 = (if socket s then reconnecting else connecting)) /\
    timerFires true s2 = s2.
Proof.
  intros [so c t m o] Hm. simpl in Hm. subst m.
  unfold handleDisconnect, scheduleReconnect, timerFires, connect, setState.
  simpl. destruct t; simpl; repeat split.
Qed.

Lemma service_reconnect_cycle_witness :
  opened (timerFires true (handleDisconnect true (connect true initial))) = 2.
Proof.
  destruct (service_reconnect_cycle (connect true initial) eq_refl)
    as (_ & (_ & H & _) & _).
  exact H.
Defined.

(** [send] opens a socket exactly when none is held or the state is
    ['disconnected'] (and a URL is configured): then one socket is opened, a
    pending reconnect timer is cancelled and the command goes to the new
    socket.  Otherwise the service is left as it is and the command goes to
    the socket in place. *)
Theorem service_send_connects_at_most_once :
  forall (agentSocketUrl : bool) (command : AgentSocketCommand)
         (s : Service) (log : list AgentSocketCommand),
    let needed := negb (socket s) || isDisconnected (connectionState s) in
    let s' := fst (sendCommand agentSocketUrl command (s, log)) in
    opened s' = (if agentSocketUrl && needed then S (opened s) else opened s) /\
    (agentSocketUrl && needed = true ->
     socket s' = true /\ reconnectTimer s' = false /\
     manualClose s' = manualClose s /\
     sendCommand agentSocketUrl command (s, log) = (s', log ++ [command])) /\
    (needed = false ->
     sendCommand agentSocketUrl command (s, log) = (s, log ++ [command])) /\
    (agentSocketUrl = false -> s' = s).
Proof.
  intros u command [so c t m o] log. unfold sendCommand, send, connect. simpl.
  destruct u, so, c; simpl; repeat split; auto; discriminate.
Qed.

Lemma service_send_connects_at_most_once_witness :
  sendCommand true (NewSession "c") (handleError true (connect true initial), [])
  = ({| socket := true; connectionState := reconnecting;
        reconnectTimer := false; manualClose := false; opened := 2 |},
     [NewSession "c"]).
Proof.
  destruct (service_send_connects_at_most_once
              true (NewSession "c") (handleError true (connect true initial)) [])
    as (_ & H & _).
  destruct (H eq_refl) as (_ & _ & _ & ->). reflexivity.
Defined.

Lemma serviceStep_keeps_manualClose b u s ev :
  isSocketClosed ev = false -> manualClose s = true ->
  manualClose (serviceStep b u s ev) = true.
Proof.
  intros Hev Hm. destruct ev; simpl in *; try discriminate; auto.
  - unfold handleError, scheduleReconnect. simpl.
    now destruct (reconnectTimer s || negb b).
  - unfold timerFires, connect. destruct (reconnectTimer s); auto.
    now destruct (negb u).
  - unfold send, connect. destruct (_ || _); auto. now destruct (negb u).
Qed.

(** The suppression flag set by [disconnect()] is cleared by a close
    notification and by nothing else: as long as none arrives it stays set
    through errors, timers, sends and openings, and the first close
    notification that does arrive, from whichever socket, arms no timer and
    clears it. *)
Theorem service_manual_close_waits_for_close :
  forall (isPlatformBrowser agentSocketUrl : bool) (s : Service)
         (evs : list ServiceEvent),
    forallb (fun ev => negb (isSocketClosed ev)) evs = true ->
    let s' := serviceRun isPlatformBrowser agentSocketUrl (disconnect s) evs in
    manualClose s' = true /\
    reconnectTimer (handleDisconnect isPlatformBrowser s') = reconnectTimer s' /\
    opened (handleDisconnect isPlatformBrowser s') = opened s' /\
    manualClose (handleDisconnect isPlatformBrowser s') = false.
Proof.
  intros b u s evs Hevs s'.
  assert (Hm : manualClose s' = true).
  { unfold s'. generalize (disconnect s) (eq_refl : manualClose (disconnect s) = true).
    induction evs as [|ev evs IH]; intros s0 Hs0; [exact Hs0|].
    simpl in Hevs. apply andb_prop in Hevs as [Hev Hevs].
    rewrite serviceRun_cons. apply IH; [exact Hevs|].
    apply serviceStep_keeps_manualClose; [|exact Hs0].
    now apply negb_true_iff in Hev. }
  split; [exact Hm|]. unfold handleDisconnect. rewrite Hm. repeat split.
Qed.

Lemma service_manual_close_waits_for_close_witness :
  let s' := serviceRun true true (disconnect initial) [CommandSent; SocketOpened] in
  socket s' = true /\
  reconnectTimer (handleDisconnect true s') = false.
Proof.
  destruct (service_manual_close_waits_for_close
              true true initial [CommandSent; SocketOpened] eq_refl)
    as (_ & H & _).
  split; [reflexivity | exact H].
Defined.

Lemma serviceStep_opened b u s ev :
  opened s <= opened (serviceStep b u s ev) /\
  opened (serviceStep b u s ev) <= opened s + (if mayConnect ev then 1 else 0).
Proof.
  destruct ev; simpl; try lia.
  - unfold handleDisconnect, scheduleReconnect.
    destruct (manualClose s); simpl; [lia|].
    destruct (reconnectTimer s || negb b); simpl; lia.
  - unfold handleError, scheduleReconnect. simpl.
    destruct (reconnectTimer s || negb b); simpl; lia.
  - unfold timerFires, connect. destruct (reconnectTimer s); [|lia].
    destruct (negb u); simpl; lia.
  - unfold send, connect. destruct (_ || _); [|lia].
    destruct (negb u); simpl; lia.
Qed.

(** Sockets are opened by the timer callback and by [send] only, one at a
    time: over any history the number of sockets opened grows by at most the
    number of those events, and never shrinks. *)
Theorem service_opens_only_on_timer_or_send :
  forall (isPlatformBrowser agentSocketUrl : bool) (evs : list ServiceEvent)
         (s : Service),
    opened s <= opened (serviceRun isPlatformBrowser agentSocketUrl s evs) /\
    opened (serviceRun isPlatformBrowser agentSocketUrl s evs)
      <= opened s + length (List.filter mayConnect evs).
Proof.
  intros b u evs. induction evs as [|ev evs IH]; intros s; [simpl; lia|].
  rewrite serviceRun_cons.
  destruct (IH (serviceStep b u s ev)) as [IH1 IH2].
  destruct (serviceStep_opened b u s ev) as [H1 H2].
  simpl. destruct (mayConnect ev); simpl in *; lia.
Qed.

End Connection.

(** ** The message list over time *)

Lemma laterVersion_refl m : laterVersion m m.
Proof. unfold laterVersion. auto 10. Qed.

Lemma laterVersion_trans m1 m2 m3 :
  laterVersion m1 m2 -> laterVersion m2 m3 -> laterVersion m1 m3.
Proof.
  unfold laterVersion.
  intros (A1 & A2 & A3 & A4 & A5 & A6) (B1 & B2 & B3 & B4 & B5 & B6).
  repeat split; try congruence; auto.
Qed.

Lemma evolves_refl ms : evolves ms ms.
Proof. intros i m Hm. exists m. split; [exact Hm | apply laterVersion_refl]. Qed.

Lemma evolves_trans ms1 ms2 ms3 :
  evolves ms1 ms2 -> evolves ms2 ms3 -> evolves ms1 ms3.
Proof.
  intros H12 H23 i m Hm. destruct (H12 i m Hm) as (m2 & Hm2 & L12).
  destruct (H23 i m2 Hm2) as (m3 & Hm3 & L23).
  exists m3. split; [exact Hm3 | now apply (laterVersion_trans m m2)].
Qed.

Lemma evolves_snoc ms x : evolves ms (ms ++ [x]).
Proof.
  intros i m Hm. exists m. split; [|apply laterVersion_refl].
  rewrite lookup_app_l; [exact Hm | now apply lookup_lt_Some in Hm].
Qed.

Lemma evolves_insert ms k m m' :
  ms !! k = Some m -> laterVersion m m' -> evolves ms (<[k := m']> ms).
Proof.
  intros Hk Hl i x Hx. destruct (Nat.eq_dec k i) as [<-|Hne].
  - exists m'. split; [|congruence].
    apply list_lookup_insert_eq. now apply lookup_lt_Some in Hk.
  - exists x. split; [|apply laterVersion_refl].
    now rewrite list_lookup_insert_ne.
Qed.

Lemma laterVersion_applyEvent ev t : laterVersion t (applyEvent ev t).
Proof.
  unfold laterVersion.
  rewrite applyEvent_id, applyEvent_responseId, applyEvent_visible.
  repeat split; auto using applyEvent_finished_mono.
  - pose proof (applyEvent_role ev t) as H. unfold isAgent in H.
    destruct (Msg.role (applyEvent ev t)), (Msg.role t); auto; discriminate.
  - by_event_type; reflexivity.
Qed.

Lemma evolves_release ms : evolves ms (releaseQueuedAgentResponses ms).
Proof.
  destruct (release_cases ms) as [->|(h & t & _ & Ht & _ & _ & _ & ->)];
    [apply evolves_refl|].
  apply (evolves_insert ms h t); [exact Ht|].
  unfold laterVersion. simpl. auto 10.
Qed.

Lemma evolves_deliver e ev ms : evolves ms (deliver e ev ms).
Proof.
  unfold deliver.
  destruct (ensureAgentMessage_cases e ms ev) as [(i & Hf & ->)|[Hf ->]].
  - destruct (ms !! i) as [t|] eqn:Ht; [|apply evolves_refl].
    assert (H : evolves ms (<[i := applyEvent ev t]> ms))
      by (apply (evolves_insert ms i t); auto using laterVersion_applyEvent).
    destruct (truthy _); [|exact H].
    eapply evolves_trans; [exact H | apply evolves_release].
  - rewrite lookup_app_r, Nat.sub_diag by lia. simpl.
    set (ins := insertion e ms ev).
    assert (H : evolves ms (<[length ms := applyEvent ev ins]> (ms ++ [ins]))).
    { eapply evolves_trans; [apply (evolves_snoc ms ins)|].
      apply (evolves_insert _ _ ins); [|apply laterVersion_applyEvent].
      rewrite lookup_app_r, Nat.sub_diag by lia. reflexivity. }
    destruct (truthy _); [|exact H].
    eapply evolves_trans; [exact H | apply evolves_release].
Qed.

Lemma evolves_step st a :
  match a with StartNewChat _ => false | _ => true end = true ->
  evolves (messages st) (messages (step st a)).
Proof.
  intros Ha. destruct a as [e ev|e rawValue| |c]; simpl; [| | |discriminate].
  - destruct (String.eqb_spec (Ev.conversationId ev) (conversationId st)) as [Hc|Hc].
    + rewrite handleStreamEvent_active by exact Hc. apply evolves_deliver.
    + rewrite handleStreamEvent_other by exact Hc. apply evolves_refl.
  - unfold submitPrompt. destruct (String.eqb rawValue ""); simpl;
      [apply evolves_refl | apply evolves_snoc].
  - unfold stopStreaming.
    destruct (find isStreamingAgent (rev (messages st))) as [active|];
      [|apply evolves_refl].
    destruct (negb _); [apply evolves_refl|]. simpl.
    destruct (findIndex _ (messages st)) as [index|]; [|apply evolves_refl].
    destruct (messages st !! index) as [m|] eqn:Hm; [|apply evolves_refl].
    eapply evolves_trans; [|apply evolves_release].
    apply (evolves_insert _ _ m _ Hm). unfold laterVersion. simpl. auto 10.
Qed.

Lemma evolves_run actions :
  forall st, noReset actions = true ->
             evolves (messages st) (messages (run st actions)).
Proof.
  induction actions as [|a actions IH]; intros st Hno; [apply evolves_refl|].
  simpl in Hno. apply andb_prop in Hno as [Ha Hno]. rewrite run_cons.
  eapply evolves_trans; [exact (evolves_step st a Ha) | now apply IH].
Qed.

(** Short of a new chat, the message list is append-only: whatever events,
    prompts and stops follow, a message stays at its index with the same id,
    role, response id and creation time, and the list never gets shorter. *)
Theorem messages_are_append_only :
  forall (st : State) (actions : list Action) (i : nat)
         (m : ConversationMessage),
    noReset actions = true ->
    messages st !! i = Some m ->
    length (messages st) <= length (messages (run st actions)) /\
    exists m', messages (run st actions) !! i = Some m' /\
               Msg.id m' = Msg.id m /\ Msg.role m' = Msg.role m /\
               Msg.responseId m' = Msg.responseId m /\
               Msg.createdAt m' = Msg.createdAt m.
Proof.
  intros st actions i m Hno Hm.
  pose proof (evolves_run actions st Hno) as Hev. split.
  - destruct (Nat.le_gt_cases (length (messages st))
                              (length (messages (run st actions)))) as [H|H];
      [exact H|].
    destruct (lookup_lt_is_Some_2 (messages st)
                (length (messages (run st actions))) H) as [x Hx].
    destruct (Hev _ _ Hx) as (x' & Hx' & _).
    apply lookup_lt_Some in Hx'. lia.
  - destruct (Hev i m Hm) as (m' & Hm' & H1 & H2 & H3 & H4 & _).
    exists m'. auto.
Qed.

Lemma messages_are_append_only_witness :
  exists m',
    messages (run (submitPrompt sampleEnv "hello" (initial "c"))
                  [ sampleDeliver "response-start" "r1"; StopStreaming ])
      !! 0 = Some m' /\
    Msg.id m' = "m-1" /\ Msg.role m' = Msg.user.
Proof.
  destruct (messages_are_append_only
              (submitPrompt sampleEnv "hello" (initial "c"))
              [ sampleDeliver "response-start" "r1"; StopStreaming ] 0 _
              eq_refl eq_refl)
    as (_ & m' & Hm' & Hid & Hrole & _).
  exists m'. auto.
Defined.

(** Short of a new chat, a message that is finished stays finished and a
    message that is shown stays shown. *)
Theorem finished_and_visible_are_monotone :
  forall (st : State) (actions : list Action) (i : nat)
         (m : ConversationMessage),
    noReset actions = true ->
    messages st !! i = Some m ->
    exists m', messages (run st actions) !! i = Some m' /\
               (truthy (Msg.finished m) = true ->
                truthy (Msg.finished m') = true) /\
               (Msg.visible m = true -> Msg.visible m' = true).
Proof.
  intros st actions i m Hno Hm.
  destruct (evolves_run actions st Hno i m Hm)
    as (m' & Hm' & _ & _ & _ & _ & Hf & Hv).
  exists m'. auto.
Qed.

Lemma finished_and_visible_are_monotone_witness :
  let st := run (initial "c") [ sampleDeliver "response-start" "r1";
                                sampleDeliver "response-end" "r1" ] in
  exists m',
    messages (run st [ sampleDeliver "response-token" "r1" ]) !! 0 = Some m' /\
    truthy (Msg.finished m') = true /\ Msg.visible m' = true.
Proof.
  intros st.
  destruct (finished_and_visible_are_monotone
              st [ sampleDeliver "response-token" "r1" ] 0 _ eq_refl eq_refl)
    as (m' & Hm' & Hf & Hv).
  exists m'. split; [exact Hm'|]. split; [apply Hf | apply Hv]; reflexivity.
Defined.

(** ** User messages *)

Lemma release_keeps_user ms i m :
  ms !! i = Some m -> isAgent m = false ->
  releaseQueuedAgentResponses ms !! i = Some m.
Proof.
  intros Hm Hu.
  destruct (release_cases ms) as [->|(h & t & _ & Ht & Hhid & _ & _ & ->)];
    [exact Hm|].
  destruct (Nat.eq_dec h i) as [->|Hne]; [|now rewrite list_lookup_insert_ne].
  assert (t = m) as -> by congruence.
  unfold isHiddenAgent in Hhid. rewrite Hu in Hhid. discriminate.
Qed.

Lemma deliver_keeps_user e ev ms i m :
  ms !! i = Some m -> isAgent m = false -> deliver e ev ms !! i = Some m.
Proof.
  intros Hm Hu. assert (Hi : i < length ms) by now apply lookup_lt_Some in Hm.
  unfold deliver.
  destruct (ensureAgentMessage_cases e ms ev) as [(k & Hf & ->)|[Hf ->]].
  - destruct (findIndex_Some _ _ _ Hf) as (t & Ht & Hmatch & _). rewrite Ht.
    assert (Hne : k <> i).
    { intros ->. assert (t = m) as -> by congruence.
      apply matchesResponse_agent in Hmatch. congruence. }
    destruct (truthy _); [apply release_keeps_user; [|exact Hu]|];
      now rewrite list_lookup_insert_ne.
  - rewrite lookup_app_r, Nat.sub_diag by lia. simpl.
    assert (Hl : <[length ms := applyEvent ev (insertion e ms ev)]>
                   (ms ++ [insertion e ms ev]) !! i = Some m).
    { rewrite list_lookup_insert_ne by lia. now rewrite lookup_app_l. }
    destruct (truthy _); [now apply release_keeps_user | exact Hl].
Qed.

(** Stream events never touch a user message, not even an event without
    response id (a user message has none either): through any sequence of
    events and submitted prompts a user message stays exactly as it was. *)
Theorem user_messages_are_untouched_by_events :
  forall (actions : list Action) (st : State) (i : nat)
         (m : ConversationMessage),
    onlyEventsAndPrompts actions = true ->
    messages st !! i = Some m ->
    Msg.role m = Msg.user ->
    messages (run st actions) !! i = Some m.
Proof.
  induction actions as [|a actions IH]; intros st i m Hacts Hm Hu; [exact Hm|].
  simpl in Hacts. apply andb_prop in Hacts as [Ha Hacts].
  rewrite run_cons. apply IH; [exact Hacts| |exact Hu].
  assert (Hna : isAgent m = false) by (unfold isAgent; now rewrite Hu).
  destruct a as [e ev|e rawValue| |c]; simpl; try discriminate.
  - destruct (String.eqb_spec (Ev.conversationId ev) (conversationId st)) as [Hc|Hc].
    + rewrite handleStreamEvent_active by exact Hc. now apply deliver_keeps_user.
    + now rewrite handleStreamEvent_other.
  - unfold submitPrompt. destruct (String.eqb rawValue ""); [exact Hm|]. simpl.
    rewrite lookup_app_l; [exact Hm | now apply lookup_lt_Some in Hm].
Qed.

Lemma user_messages_are_untouched_by_events_witness :
  messages (run (submitPrompt sampleEnv "hello" (initial "c"))
                [ Deliver sampleEnv
                    (Ev.mk "c" IdUndefined "response-token" None (Some "x") None None);
                  sampleDeliver "response-end" "r1" ]) !! 0
  = Some (Msg.mk "m-1" Msg.user "hello" 0%Z IdUndefined None None None None
                 true).
Proof.
  apply (user_messages_are_untouched_by_events
           [ Deliver sampleEnv
               (Ev.mk "c" IdUndefined "response-token" None (Some "x") None None);
             sampleDeliver "response-end" "r1" ]
           (submitPrompt sampleEnv "hello" (initial "c")) 0);
    reflexivity.
Defined.

(** ** One message per response *)

Lemma strictEq_eq a b : strictEq a b = true <-> a = b.
Proof.
  destruct a as [| |x], b as [| |y]; simpl; split; try discriminate; auto.
  - intros H. apply String.eqb_eq in H. now subst.
  - intros H. injection H as ->. apply String.eqb_refl.
Qed.

Lemma agentKey_matches ev m :
  matchesResponse ev m = true <-> agentKey m = Some (Ev.responseId ev).
Proof.
  unfold matchesResponse, agentKey. destruct (isAgent m).
  - rewrite andb_true_r, strictEq_eq. split; congruence.
  - rewrite andb_false_r. split; discriminate.
Qed.

Lemma agentKey_applyEvent ev t : agentKey (applyEvent ev t) = agentKey t.
Proof. unfold agentKey. now rewrite applyEvent_role, applyEvent_responseId. Qed.

Lemma agentKeys_insert (ms : list ConversationMessage) (k : nat) m m' :
  ms !! k = Some m -> agentKey m' = agentKey m ->
  agentKey <$> <[k := m']> ms = agentKey <$> ms.
Proof.
  intros Hk Hkey. rewrite list_fmap_insert, Hkey.
  apply list_insert_id. now rewrite list_lookup_fmap, Hk.
Qed.

Lemma agentKeys_release (ms : list ConversationMessage) :
  agentKey <$> releaseQueuedAgentResponses ms = agentKey <$> ms.
Proof.
  destruct (release_cases ms) as [->|(h & t & _ & Ht & _ & _ & _ & ->)];
    [reflexivity|].
  now apply (agentKeys_insert ms h t).
Qed.

(** The keys after a delivery: those before, and one more for a response
    that had no message. *)
Lemma agentKeys_deliver e ev (ms : list ConversationMessage) :
  agentKey <$> deliver e ev ms =
  (agentKey <$> ms) ++
  match findIndex (matchesResponse ev) ms with
  | Some _ => []
  | None => [Some (Ev.responseId ev)]
  end.
Proof.
  unfold deliver.
  destruct (ensureAgentMessage_cases e ms ev) as [(k & Hf & ->)|[Hf ->]];
    rewrite Hf.
  - rewrite app_nil_r. destruct (ms !! k) as [t|] eqn:Ht; [|reflexivity].
    destruct (truthy _); [rewrite agentKeys_release|];
      apply (agentKeys_insert ms k t _ Ht), agentKey_applyEvent.
  - rewrite lookup_app_r, Nat.sub_diag by lia. simpl.
    set (ins := insertion e ms ev).
    assert (H : agentKey <$> <[length ms := applyEvent ev ins]> (ms ++ [ins])
                = (agentKey <$> ms) ++ [Some (Ev.responseId ev)]).
    { rewrite (agentKeys_insert _ _ ins).
      - now rewrite fmap_app.
      - rewrite lookup_app_r, Nat.sub_diag by lia. reflexivity.
      - apply agentKey_applyEvent. }
    destruct (truthy _); [now rewrite agentKeys_release | exact H].
Qed.

Lemma keysUnique_snoc_none ks : keysUnique ks -> keysUnique (ks ++ [None]).
Proof.
  intros H i j r Hi Hj.
  assert (Hi' : ks !! i = Some (Some r)).
  { destruct (Nat.lt_ge_cases i (length ks)) as [Hl|Hl].
    - now rewrite lookup_app_l in Hi.
    - rewrite lookup_app_r in Hi by exact Hl.
      destruct (i - length ks) as [|n]; [discriminate | destruct n; discriminate]. }
  assert (Hj' : ks !! j = Some (Some r)).
  { destruct (Nat.lt_ge_cases j (length ks)) as [Hl|Hl].
    - now rewrite lookup_app_l in Hj.
    - rewrite lookup_app_r in Hj by exact Hl.
      destruct (j - length ks) as [|n]; [discriminate | destruct n; discriminate]. }
  now apply (H i j r).
Qed.

Lemma keysUnique_snoc_fresh ks r :
  keysUnique ks -> (forall i, ks !! i <> Some (Some r)) ->
  keysUnique (ks ++ [Some r]).
Proof.
  intros H Hfresh i j r' Hi Hj.
  destruct (Nat.lt_ge_cases i (length ks)) as [Hil|Hil];
    destruct (Nat.lt_ge_cases j (length ks)) as [Hjl|Hjl].
  - rewrite lookup_app_l in Hi, Hj by assumption. now apply (H i j r').
  - exfalso. rewrite lookup_app_l in Hi by exact Hil.
    rewrite lookup_app_r in Hj by exact Hjl.
    destruct (j - length ks) as [|n]; [|destruct n; discriminate].
    injection Hj as <-. now apply (Hfresh i).
  - exfalso. rewrite lookup_app_l in Hj by exact Hjl.
    rewrite lookup_app_r in Hi by exact Hil.
    destruct (i - length ks) as [|n]; [|destruct n; discriminate].
    injection Hi as <-. now apply (Hfresh j).
  - apply lookup_lt_Some in Hi, Hj. rewrite length_app in Hi, Hj.
    simpl in Hi, Hj. lia.
Qed.

Lemma keysUnique_step st a :
  keysUnique (agentKey <$> messages st) ->
  keysUnique (agentKey <$> messages (step st a)).
Proof.
  intros H. destruct a as [e ev|e rawValue| |c]; simpl.
  - destruct (String.eqb_spec (Ev.conversationId ev) (conversationId st)) as [Hc|Hc].
    + rewrite handleStreamEvent_active by exact Hc. simpl.
      rewrite agentKeys_deliver.
      destruct (findIndex (matchesResponse ev) (messages st)) eqn:Hf;
        [now rewrite app_nil_r|].
      apply keysUnique_snoc_fresh; [exact H|].
      intros i Hi. rewrite list_lookup_fmap in Hi.
      destruct (messages st !! i) as [y|] eqn:Hy; [|discriminate].
      simpl in Hi. injection Hi as Hi. apply agentKey_matches in Hi.
      rewrite (findIndex_None _ _ Hf i y Hy) in Hi. discriminate.
    + now rewrite handleStreamEvent_other.
  - unfold submitPrompt. destruct (String.eqb rawValue ""); [exact H|]. simpl.
    rewrite fmap_app. now apply keysUnique_snoc_none.
  - unfold stopStreaming.
    destruct (find isStreamingAgent (rev (messages st))) as [active|]; [|exact H].
    destruct (negb _); [exact H|]. simpl.
    destruct (findIndex _ (messages st)) as [index|]; [|exact H].
    destruct (messages st !! index) as [m|] eqn:Hm; [|exact H].
    rewrite agentKeys_release. now rewrite (agentKeys_insert _ _ m).
  - intros i j r Hi. destruct i; discriminate.
Qed.

Lemma keysUnique_nil : keysUnique [].
Proof. intros i j r Hi. destruct i; discriminate. Qed.

Lemma keysUnique_run actions :
  forall st, keysUnique (agentKey <$> messages st) ->
             keysUnique (agentKey <$> messages (run st actions)).
Proof.
  induction actions as [|a actions IH]; intros st Hst; [exact Hst|].
  rewrite run_cons. apply IH. now apply keysUnique_step.
Qed.

(** In every state reached from construction, a response id names at most
    one agent message: two different agent messages never have the same
    response id, where an absent id ([undefined]) and [null] count as ids of
    their own, as they do for the [===] of [ensureAgentMessage]. *)
Theorem response_id_names_one_agent_message :
  forall (cid : string) (actions : list Action) (i j : nat)
         (mi mj : ConversationMessage),
    i <> j ->
    messages (run (initial cid) actions) !! i = Some mi ->
    messages (run (initial cid) actions) !! j = Some mj ->
    isAgent mi = true -> isAgent mj = true ->
    Msg.responseId mi <> Msg.responseId mj.
Proof.
  intros cid actions i j mi mj Hij Hi Hj Ai Aj Hr. apply Hij.
  pose proof (keysUnique_run actions (initial cid) keysUnique_nil) as H.
  apply (H i j (Msg.responseId mi)); rewrite list_lookup_fmap.
  - rewrite Hi. unfold agentKey. simpl. now rewrite Ai.
  - rewrite Hj. unfold agentKey. simpl. now rewrite Aj, Hr.
Qed.

(** Three responses, one without id, one with a [null] id, one named
    ["r1"], each with two events: three agent messages, pairwise apart. *)
Lemma response_id_names_one_agent_message_witness :
  let ev rid ty := Ev.mk "c" rid ty None None None None in
  let st := run (initial "c")
                [ Deliver sampleEnv (ev IdUndefined "response-start");
                  Deliver sampleEnv (ev IdNull "response-start");
                  Deliver sampleEnv (ev (Id "r1") "response-start");
                  Deliver sampleEnv (ev IdNull "response-token");
                  Deliver sampleEnv (ev IdUndefined "response-token");
                  Deliver sampleEnv (ev (Id "r1") "response-token") ] in
  length (messages st) = 3 /\
  exists m0 m1,
    messages st !! 0 = Some m0 /\ messages st !! 1 = Some m1 /\
    Msg.responseId m0 = IdUndefined /\ Msg.responseId m1 = IdNull /\
    Msg.responseId m0 <> Msg.responseId m1.
Proof.
  intros ev st. split; [reflexivity|].
  eexists. eexists. split; [reflexivity|]. split; [reflexivity|].
  split; [reflexivity|]. split; [reflexivity|].
  apply (response_id_names_one_agent_message
           "c" [ Deliver sampleEnv (ev IdUndefined "response-start");
                 Deliver sampleEnv (ev IdNull "response-start");
                 Deliver sampleEnv (ev (Id "r1") "response-start");
                 Deliver sampleEnv (ev IdNull "response-token");
                 Deliver sampleEnv (ev IdUndefined "response-token");
                 Deliver sampleEnv (ev (Id "r1") "response-token") ] 0 1);
    [lia | reflexivity | reflexivity | reflexivity | reflexivity].
Defined.

(** After an event of the active conversation has been handled, the list
    holds an agent message with the event's response id, at the index of the
    first message that matched it, or at the end of the former list when
    none did. *)
Theorem handled_event_has_its_message :
  forall (e : Env) (ev : AgentStreamEvent) (st : State),
    Ev.conversationId ev = conversationId st ->
    exists m,
      messages (handleStreamEvent e ev st)
        !! orElse (findIndex (matchesResponse ev) (messages st))
                  (length (messages st)) = Some m /\
      isAgent m = true /\
      Msg.responseId m = Ev.responseId ev /\
      findIndex (matchesResponse ev) (messages (handleStreamEvent e ev st))
        = Some (orElse (findIndex (matchesResponse ev) (messages st))
                       (length (messages st))).
Proof.
  intros e ev st Hc. rewrite handleStreamEvent_active by exact Hc. simpl.
  set (ms := messages st).
  assert (Hidx : snd (ensureAgentMessage e ms ev)
                 = orElse (findIndex (matchesResponse ev) ms) (length ms)).
  { destruct (ensureAgentMessage_cases e ms ev) as [(k & Hf & ->)|[Hf ->]];
      now rewrite Hf. }
  rewrite <- Hidx.
  destruct (ensureAgentMessage_found e ms ev) as (Hf & t & Ht).
  unfold deliver.
  destruct (ensureAgentMessage e ms ev) as [updated index]. simpl in Hf, Ht |- *.
  rewrite Ht.
  assert (Hi : index < length updated) by now apply lookup_lt_Some in Ht.
  assert (Hl : <[index := applyEvent ev t]> updated !! index
               = Some (applyEvent ev t)) by now apply list_lookup_insert_eq.
  assert (Hfi : findIndex (matchesResponse ev) (<[index := applyEvent ev t]> updated)
                = Some index).
  { rewrite <- Hf. apply findIndex_agree; [apply length_insert|].
    intros j x y Hx Hy. destruct (Nat.eq_dec index j) as [<-|Hne].
    - rewrite Hl in Hx. injection Hx as <-.
      rewrite matchesResponse_applyEvent. congruence.
    - rewrite list_lookup_insert_ne in Hx by exact Hne. congruence. }
  destruct (findIndex_Some _ _ _ Hf) as (t' & Ht' & Hmatch & _).
  assert (t' = t) as -> by congruence.
  apply agentKey_matches in Hmatch.
  assert (Hkey : forall v, agentKey (withVisible (applyEvent ev t) v)
                           = Some (Ev.responseId ev)).
  { intros v. now rewrite <- Hmatch, <- (agentKey_applyEvent ev t). }
  assert (Hfacts : forall m, agentKey m = Some (Ev.responseId ev) ->
                             isAgent m = true /\
                             Msg.responseId m = Ev.responseId ev).
  { intros m. unfold agentKey. destruct (isAgent m); [|discriminate].
    intros H. injection H as H. auto. }
  destruct (truthy (Msg.finished (applyEvent ev t))).
  - destruct (release_lookup _ _ _ Hl) as (v & Hv).
    exists (withVisible (applyEvent ev t) v). split; [exact Hv|].
    destruct (Hfacts _ (Hkey v)) as [Ha Hr]. repeat split; auto.
    now rewrite findIndex_release_matches.
  - exists (applyEvent ev t). split; [exact Hl|].
    destruct (Hfacts _ (Hkey (Msg.visible (applyEvent ev t)))) as [Ha Hr].
    rewrite withVisible_same in Ha, Hr. auto.
Qed.

Lemma handled_event_has_its_message_witness :
  exists m,
    messages (handleStreamEvent sampleEnv (sampleEvent "response-end" "r9")
                                backlogState) !! 3 = Some m /\
    Msg.responseId m = Id "r9".
Proof.
  destruct (handled_event_has_its_message
              sampleEnv (sampleEvent "response-end" "r9") backlogState eq_refl)
    as (m & Hm & _ & Hr & _).
  exists m. split; [exact Hm | exact Hr].
Defined.

(** ** Order of presentation *)

(** In every state reached from construction, an agent message that is
    shown comes after finished agent messages only: no response is shown
    while an agent message before it is unfinished. *)
Theorem shown_agent_follows_finished_ones :
  forall (cid : string) (actions : list Action) (i j : nat)
         (mi mj : ConversationMessage),
    i < j ->
    messages (run (initial cid) actions) !! i = Some mi ->
    messages (run (initial cid) actions) !! j = Some mj ->
    isAgent mi = true -> isAgent mj = true ->
    Msg.visible mj = true ->
    truthy (Msg.finished mi) = true.
Proof.
  intros cid actions i j mi mj. apply queueInv_reachable.
Qed.

Lemma shown_agent_follows_finished_ones_witness :
  exists mi, messages backlogState !! 0 = Some mi /\
             truthy (Msg.finished mi) = true.
Proof.
  eexists. split; [reflexivity|].
  apply (shown_agent_follows_finished_ones
           "c" [ sampleDeliver "response-start" "r0";
                 sampleDeliver "response-start" "r1";
                 sampleDeliver "response-start" "r2";
                 sampleDeliver "response-end" "r1";
                 sampleDeliver "response-end" "r2";
                 sampleDeliver "response-end" "r0" ] 0 1 _
           (Msg.mk "r1" Msg.agent "" 0%Z (Id "r1") (Some completed) (Some [])
                   (Some false) (Some true) true));
    [lia | reflexivity | reflexivity | reflexivity | reflexivity | reflexivity].
Defined.

(** ** How fast the queue is released *)

Lemma filter_length_insert {A : Type} (p : A -> bool) (l : list A) k y x :
  l !! k = Some y ->
  length (List.filter p (<[k := x]> l)) + (if p y then 1 else 0) =
  length (List.filter p l) + (if p x then 1 else 0).
Proof.
  revert k. induction l as [|a l IH]; intros k Hk; [destruct k; discriminate|].
  destruct k as [|k]; simpl in *.
  - injection Hk as ->. destruct (p x), (p y); simpl; lia.
  - specialize (IH k Hk). destruct (p a); simpl; lia.
Qed.

Lemma filter_length_snoc {A : Type} (p : A -> bool) (l : list A) x :
  length (List.filter p (l ++ [x])) =
  length (List.filter p l) + (if p x then 1 else 0).
Proof.
  rewrite List.filter_app, length_app. simpl. now destruct (p x).
Qed.

Lemma filter_length_none {A : Type} (p : A -> bool) (l : list A) :
  findIndex p l = None -> length (List.filter p l) = 0.
Proof.
  induction l as [|a l IH]; [reflexivity|]. simpl.
  destruct (p a); [discriminate|].
  destruct (findIndex p l); [discriminate | auto].
Qed.

Lemma hiddenCount_show ms h t :
  ms !! h = Some t -> isHiddenAgent t = true ->
  S (hiddenCount (<[h := withVisible t true]> ms)) = hiddenCount ms.
Proof.
  intros Ht Hhid. unfold hiddenCount.
  pose proof (filter_length_insert isHiddenAgent ms h t (withVisible t true) Ht) as H.
  rewrite Hhid in H.
  assert (Hx : isHiddenAgent (withVisible t true) = false)
    by (unfold isHiddenAgent; simpl; apply andb_false_r).
  rewrite Hx in H. lia.
Qed.

(** A release shows at most one message. *)
Lemma hiddenCount_release ms :
  hiddenCount (releaseQueuedAgentResponses ms) = hiddenCount ms \/
  S (hiddenCount (releaseQueuedAgentResponses ms)) = hiddenCount ms.
Proof.
  destruct (release_cases ms) as [->|(h & t & _ & Ht & Hhid & _ & _ & ->)];
    [now left | right; now apply hiddenCount_show].
Qed.

Lemma hiddenCount_insert_same ms k m m' :
  ms !! k = Some m -> isHiddenAgent m' = isHiddenAgent m ->
  hiddenCount (<[k := m']> ms) = hiddenCount ms.
Proof.
  intros Hk Hsame. unfold hiddenCount.
  pose proof (filter_length_insert isHiddenAgent ms k m m' Hk) as H.
  rewrite Hsame in H. destruct (isHiddenAgent m); lia.
Qed.

(** One event changes the number of hidden agent messages by at most one,
    up or down: it may queue the message it creates, and it shows at most
    one queued message however many could be shown. *)
Theorem event_moves_queue_by_at_most_one :
  forall (e : Env) (ev : AgentStreamEvent) (st : State),
    hiddenCount (messages st)
      <= S (hiddenCount (messages (handleStreamEvent e ev st))) /\
    hiddenCount (messages (handleStreamEvent e ev st))
      <= S (hiddenCount (messages st)).
Proof.
  intros e ev st.
  destruct (String.eqb_spec (Ev.conversationId ev) (conversationId st)) as [Hc|Hc];
    [|rewrite handleStreamEvent_other by exact Hc; lia].
  rewrite handleStreamEvent_active by exact Hc. simpl.
  set (ms := messages st). unfold deliver.
  destruct (ensureAgentMessage_cases e ms ev) as [(k & Hf & ->)|[Hf ->]].
  - destruct (ms !! k) as [t|] eqn:Ht; [|lia].
    pose proof (hiddenCount_insert_same ms k t (applyEvent ev t) Ht
                  (isHiddenAgent_applyEvent ev t)) as Hins.
    destruct (truthy _); [|lia].
    destruct (hiddenCount_release (<[k := applyEvent ev t]> ms)); lia.
  - rewrite lookup_app_r, Nat.sub_diag by lia. simpl.
    set (ins := insertion e ms ev).
    assert (Hins : hiddenCount (<[length ms := applyEvent ev ins]> (ms ++ [ins]))
                   = hiddenCount ms + (if isHiddenAgent ins then 1 else 0)).
    { rewrite (hiddenCount_insert_same _ _ ins).
      - apply filter_length_snoc.
      - rewrite lookup_app_r, Nat.sub_diag by lia. reflexivity.
      - apply isHiddenAgent_applyEvent. }
    destruct (truthy _).
    + destruct (hiddenCount_release (<[length ms := applyEvent ev ins]> (ms ++ [ins])));
        destruct (isHiddenAgent ins); lia.
    + destruct (isHiddenAgent ins); lia.
Qed.

Lemma allAgentsFinished_release ms :
  allAgentsFinished ms -> allAgentsFinished (releaseQueuedAgentResponses ms).
Proof.
  intros Hall i m Hm Ha.
  assert (Hi : i < length ms).
  { apply lookup_lt_Some in Hm. now rewrite release_length in Hm. }
  destruct (lookup_lt_is_Some_2 ms i Hi) as [y Hy].
  destruct (release_lookup ms i y Hy) as (v & Hv).
  assert (m = withVisible y v) as -> by congruence.
  now apply (Hall i y).
Qed.

Lemma hiddenCount_release_finished ms :
  allAgentsFinished ms ->
  hiddenCount (releaseQueuedAgentResponses ms) = pred (hiddenCount ms).
Proof.
  intros Hall. unfold releaseQueuedAgentResponses.
  destruct (findIndex isHiddenAgent ms) as [h|] eqn:Hf.
  - destruct (findIndex_Some _ _ _ Hf) as (t & Ht & Hhid & _). rewrite Ht.
    assert (Hprev : match find isAgent (rev (take h ms)) with
                    | Some p => truthy (Msg.finished p)
                    | None => true
                    end = true).
    { destruct (find isAgent (rev (take h ms))) as [p|] eqn:Hp; [|reflexivity].
      destruct (find_rev_Some _ _ _ Hp) as (q & Hq & Ap & _).
      assert (Hqh : q < h).
      { apply lookup_lt_Some in Hq. rewrite length_take in Hq. lia. }
      rewrite lookup_take_lt in Hq by exact Hqh. now apply (Hall q). }
    rewrite Hprev. rewrite <- (hiddenCount_show ms h t Ht Hhid). reflexivity.
  - unfold hiddenCount. now rewrite (filter_length_none _ _ Hf).
Qed.

(** Once every agent message is finished, each release shows exactly one
    hidden message (the earliest), so as many releases as there are hidden
    messages show them all, and no fewer do: the queue drains one finishing
    event at a time. *)
Theorem finished_queue_drains_one_per_release :
  forall (ms : list ConversationMessage),
    allAgentsFinished ms ->
    hiddenCount (releaseQueuedAgentResponses ms) = pred (hiddenCount ms) /\
    forall n,
      hiddenCount (Nat.iter n releaseQueuedAgentResponses ms)
      = hiddenCount ms - n.
Proof.
  intros ms Hall. split; [now apply hiddenCount_release_finished|].
  intros n. revert ms Hall. induction n as [|n IH]; intros ms Hall.
  - simpl. lia.
  - rewrite Nat.iter_succ_r, IH by now apply allAgentsFinished_release.
    rewrite hiddenCount_release_finished by exact Hall. lia.
Qed.

Lemma finished_queue_drains_one_per_release_witness :
  let ms := messages backlogState in
  hiddenCount ms = 1 /\
  hiddenCount (releaseQueuedAgentResponses ms) = 0.
Proof.
  intros ms. split; [reflexivity|].
  assert (Hall : allAgentsFinished ms).
  { intros i m Hm _. unfold ms in Hm.
    destruct i as [|[|[|i]]]; vm_compute in Hm; try discriminate;
      injection Hm as <-; reflexivity. }
  destruct (finished_queue_drains_one_per_release ms Hall) as [H _].
  rewrite H. reflexivity.
Defined.

(** ** Content and tokens *)

Lemma concatTokens_snoc ts t :
  concatTokens (ts ++ [t]) = (concatTokens ts ++ t)%string.
Proof.
  unfold concatTokens. induction ts as [|a ts IH]; simpl.
  - apply string_app_nil_r.
  - now rewrite IH, string_app_assoc.
Qed.

Lemma Forall_release (P : ConversationMessage -> Prop) ms :
  (forall m v, P m -> P (withVisible m v)) ->
  Forall P ms -> Forall P (releaseQueuedAgentResponses ms).
Proof.
  intros Hvis Hall.
  destruct (release_cases ms) as [->|(h & t & _ & Ht & _ & _ & _ & ->)];
    [exact Hall|].
  apply Forall_insert; [exact Hall|]. apply Hvis.
  now apply (Forall_lookup_1 P ms h t).
Qed.

Lemma tokensAgree_applyEvent ev t :
  isPlainEvent ev = true -> tokensAgree t -> tokensAgree (applyEvent ev t).
Proof.
  unfold tokensAgree, isPlainEvent. intros Hplain Ht.
  rewrite applyEvent_role. intros Ha. destruct (Ht Ha) as (ts & Hts & Hc).
  destruct (Ev.content ev) eqn:Hcontent; [discriminate|].
  unfold applyEvent. rewrite Hcontent.
  destruct (String.eqb (Ev.type ev) "response-start"); [simpl; eauto|].
  destruct (String.eqb (Ev.type ev) "response-token").
  { simpl. rewrite Hts, Hc. simpl. eexists. split; [reflexivity|].
    now rewrite concatTokens_snoc. }
  destruct (String.eqb (Ev.type ev) "response-status"); [simpl; eauto|].
  destruct (String.eqb (Ev.type ev) "response-end"); [simpl; eauto|].
  destruct (String.eqb (Ev.type ev) "response-error"); [simpl; eauto|].
  destruct (String.eqb (Ev.type ev) "response-stop"); [simpl; eauto|].
  eauto.
Qed.

Lemma tokensAgree_insertion e ms ev :
  isPlainEvent ev = true -> tokensAgree (insertion e ms ev).
Proof.
  unfold isPlainEvent, tokensAgree, insertion. simpl. intros Hplain _.
  destruct (Ev.content ev); [discriminate|].
  destruct (Ev.tokens ev); [discriminate|]. exists []. auto.
Qed.

Lemma tokensAgree_step st a :
  match a with Deliver _ ev => isPlainEvent ev | _ => true end = true ->
  Forall tokensAgree (messages st) ->
  Forall tokensAgree (messages (step st a)).
Proof.
  intros Ha Hall.
  assert (Hvis : forall m v, tokensAgree m -> tokensAgree (withVisible m v))
    by (intros m v H; exact H).
  destruct a as [e ev|e rawValue| |c]; simpl.
  - destruct (String.eqb_spec (Ev.conversationId ev) (conversationId st)) as [Hc|Hc];
      [|now rewrite handleStreamEvent_other].
    rewrite handleStreamEvent_active by exact Hc. simpl. unfold deliver.
    destruct (ensureAgentMessage_cases e (messages st) ev)
      as [(k & Hf & ->)|[Hf ->]].
    + destruct (messages st !! k) as [t|] eqn:Ht; [|exact Hall].
      assert (Hins : Forall tokensAgree (<[k := applyEvent ev t]> (messages st))).
      { apply Forall_insert; [exact Hall|].
        apply tokensAgree_applyEvent; [exact Ha|].
        now apply (Forall_lookup_1 tokensAgree (messages st) k t). }
      destruct (truthy _); [now apply Forall_release | exact Hins].
    + rewrite lookup_app_r, Nat.sub_diag by lia. simpl.
      assert (Hins : Forall tokensAgree
                (<[length (messages st) := applyEvent ev (insertion e (messages st) ev)]>
                   (messages st ++ [insertion e (messages st) ev]))).
      { apply Forall_insert.
        - apply Forall_app. split; [exact Hall|].
          apply Forall_cons. split; [now apply tokensAgree_insertion|].
          apply Forall_nil_2.
        - apply tokensAgree_applyEvent; [exact Ha|].
          now apply tokensAgree_insertion. }
      destruct (truthy _); [now apply Forall_release | exact Hins].
  - unfold submitPrompt. destruct (String.eqb rawValue ""); [exact Hall|]. simpl.
    apply Forall_app. split; [exact Hall|].
    apply Forall_cons. split; [discriminate | apply Forall_nil_2].
  - unfold stopStreaming.
    destruct (find isStreamingAgent (rev (messages st))) as [active|]; [|exact Hall].
    destruct (negb _); [exact Hall|]. simpl.
    destruct (findIndex _ (messages st)) as [index|]; [|exact Hall].
    destruct (messages st !! index) as [m|] eqn:Hm; [|exact Hall].
    apply Forall_release; [exact Hvis|].
    apply Forall_insert; [exact Hall|].
    exact (Forall_lookup_1 tokensAgree (messages st) index m Hall Hm).
  - apply Forall_nil_2.
Qed.

(** As long as no event carries a [content] or [tokens] field of its own,
    the content of every agent message is the concatenation, in order, of
    the tokens recorded for it: the two accumulators never drift apart,
    whatever the order of the events and whatever else happens. *)
Theorem content_is_concatenation_of_tokens :
  forall (cid : string) (actions : list Action) (i : nat)
         (m : ConversationMessage),
    plainHistory actions = true ->
    messages (run (initial cid) actions) !! i = Some m ->
    isAgent m = true ->
    exists ts, Msg.tokens m = Some ts /\ Msg.content m = concatTokens ts.
Proof.
  intros cid actions i m Hplain Hm.
  assert (H : Forall tokensAgree (messages (run (initial cid) actions))).
  { generalize (initial cid) (Forall_nil_2 tokensAgree : Forall tokensAgree (messages (initial cid))).
    revert Hplain. clear. induction actions as [|a actions IH];
      intros Hplain st Hst; [exact Hst|].
    simpl in Hplain. apply andb_prop in Hplain as [Ha Hplain].
    rewrite run_cons. apply IH; [exact Hplain|].
    now apply tokensAgree_step. }
  exact (Forall_lookup_1 tokensAgree _ i m H Hm).
Qed.

Lemma content_is_concatenation_of_tokens_witness :
  exists m ts,
    messages (run (initial "c")
                  [ sampleDeliver "response-start" "r1";
                    Deliver sampleEnv
                      (Ev.mk "c" (Id "r1") "response-token" None (Some "Hi")
                             None None);
                    Deliver sampleEnv
                      (Ev.mk "c" (Id "r1") "response-token" None (Some "!")
                             None None) ]) !! 0 = Some m /\
    Msg.tokens m = Some ts /\ Msg.content m = concatTokens ts.
Proof.
  eexists.
  destruct (content_is_concatenation_of_tokens
              "c" [ sampleDeliver "response-start" "r1";
                    Deliver sampleEnv
                      (Ev.mk "c" (Id "r1") "response-token" None (Some "Hi")
                             None None);
                    Deliver sampleEnv
                      (Ev.mk "c" (Id "r1") "response-token" None (Some "!")
                             None None) ] 0 _ eq_refl eq_refl eq_refl)
    as (ts & Hts & Hc).
  exists ts. split; [reflexivity|]. split; [exact Hts | exact Hc].
Defined.

(** ** The commands handed to the service *)

Lemma addressedTo_snoc cmds : forall cur cmd,
  addressedTo cur (cmds ++ [cmd]) =
  match addressedTo cur cmds with
  | Some c =>
      if isNewSession cmd then Some (commandConversation cmd)
      else if String.eqb (commandConversation cmd) c then Some c else None
  | None => None
  end.
Proof.
  induction cmds as [|x cmds IH]; intros cur cmd; simpl.
  - destruct (isNewSession cmd); [reflexivity|].
    now destruct (String.eqb (commandConversation cmd) cur).
  - destruct (isNewSession x); [apply IH|].
    destruct (String.eqb (commandConversation x) cur); [apply IH | reflexivity].
Qed.

Lemma handleStreamEvent_sent e ev st : sent (handleStreamEvent e ev st) = sent st.
Proof.
  destruct (String.eqb_spec (Ev.conversationId ev) (conversationId st)) as [Hc|Hc].
  - now rewrite handleStreamEvent_active.
  - now rewrite handleStreamEvent_other.
Qed.

Lemma sessionInSync_snoc c0 st cmd ms :
  sessionInSync c0 st ->
  isNewSession cmd = false -> commandConversation cmd = conversationId st ->
  sessionInSync c0 {| messages := ms; conversationId := conversationId st;
                      sent := sent st ++ [cmd] |}.
Proof.
  intros (rest & Hs & Ha) Hn Hc. exists (rest ++ [cmd]). simpl.
  split; [now rewrite Hs|].
  now rewrite addressedTo_snoc, Ha, Hn, Hc, String.eqb_refl.
Qed.

Lemma sessionInSync_step c0 st a :
  sessionInSync c0 st -> sessionInSync c0 (step st a).
Proof.
  intros Hsync. destruct a as [e ev|e rawValue| |c]; simpl.
  - destruct Hsync as (rest & Hs & Ha). exists rest.
    now rewrite handleStreamEvent_sent, handleStreamEvent_conversationId.
  - unfold submitPrompt. destruct (String.eqb rawValue ""); [exact Hsync|].
    now apply sessionInSync_snoc.
  - unfold stopStreaming.
    destruct (find isStreamingAgent (rev (messages st))) as [active|];
      [|exact Hsync].
    destruct (negb _); [exact Hsync|]. now apply sessionInSync_snoc.
  - destruct Hsync as (rest & Hs & Ha). exists (rest ++ [NewSession c]).
    unfold startNewChat. simpl. split; [now rewrite Hs|].
    now rewrite addressedTo_snoc, Ha.
Qed.

(** In every state reached from construction, the commands handed to the
    service start with the announcement of the first session, every
    user-message and stop-response command names the session announced last
    before it, and the session announced last of all is the conversation the
    component is in: the backend is never addressed under a stale
    conversation id. *)
Theorem commands_address_the_announced_session :
  forall (cid : string) (actions : list Action),
    exists rest,
      sent (run (initial cid) actions) = NewSession cid :: rest /\
      addressedTo cid rest = Some (conversationId (run (initial cid) actions)).
Proof.
  intros cid actions.
  assert (H : sessionInSync cid (initial cid)) by (exists []; auto).
  revert H. generalize (initial cid).
  induction actions as [|a actions IH]; intros st Hst; [exact Hst|].
  rewrite run_cons. apply IH. now apply sessionInSync_step.
Qed.

(** ** The stop button *)

Lemma stopStreaming_latest st i active :
  latestStreaming (messages st) i active ->
  truthyString (Msg.responseId active) = true ->
  NoDup (Msg.id <$> messages st) ->
  messages (stopStreaming st) =
  releaseQueuedAgentResponses (<[i := withStopped active]> (messages st)).
Proof.
  intros Hlatest Hrid Hnd.
  pose proof (latestStreaming_find _ _ _ Hlatest) as Hfind.
  destruct Hlatest as (Hi & _ & _).
  assert (Hidx : findIndex (fun m => String.eqb (Msg.id m) (Msg.id active))
                           (messages st) = Some i).
  { apply (findIndex_first _ _ i active Hi); [apply String.eqb_refl|].
    intros j y Hj Hy. apply String.eqb_neq. intros Hid.
    assert (j = i) by now apply (unique_id_index (messages st) j i y active).
    lia. }
  unfold stopStreaming. now rewrite Hfind, Hrid, Hidx, Hi.
Qed.

Lemma streamingCount_release ms :
  streamingCount (releaseQueuedAgentResponses ms) = streamingCount ms.
Proof.
  destruct (release_cases ms) as [->|(h & t & _ & Ht & _ & _ & _ & ->)];
    [reflexivity|].
  unfold streamingCount.
  pose proof (filter_length_insert isStreamingAgent ms h t (withVisible t true) Ht)
    as H.
  change (isStreamingAgent (withVisible t true)) with (isStreamingAgent t) in H.
  destruct (isStreamingAgent t); lia.
Qed.

Lemma existsb_filter_length {A : Type} (p : A -> bool) (l : list A) :
  existsb p l = negb (length (List.filter p l) =? 0).
Proof.
  induction l as [|a l IH]; [reflexivity|]. simpl.
  destruct (p a); [reflexivity | exact IH].
Qed.

(** When the last streaming agent message has a response id (and message
    ids are unique), one press of the stop button takes exactly one message
    out of the streaming ones; the button, shown while
    [hasStreamingResponse] holds, goes away exactly when that message was
    the only one streaming. *)
Theorem stop_takes_one_message_out_of_streaming :
  forall (st : State) (i : nat) (active : ConversationMessage),
    latestStreaming (messages st) i active ->
    truthyString (Msg.responseId active) = true ->
    NoDup (Msg.id <$> messages st) ->
    S (streamingCount (messages (stopStreaming st)))
      = streamingCount (messages st) /\
    hasStreamingResponse st = true /\
    hasStreamingResponse (stopStreaming st)
      = negb (streamingCount (messages st) =? 1).
Proof.
  intros st i active Hlatest Hrid Hnd.
  assert (Hcount : S (streamingCount (messages (stopStreaming st)))
                   = streamingCount (messages st)).
  { rewrite (stopStreaming_latest st i active Hlatest Hrid Hnd).
    rewrite streamingCount_release. destruct Hlatest as (Hi & Hs & _).
    unfold streamingCount.
    pose proof (filter_length_insert isStreamingAgent (messages st) i active
                  (withStopped active) Hi) as H.
    rewrite Hs in H.
    assert (Hx : isStreamingAgent (withStopped active) = false)
      by (unfold isStreamingAgent; simpl; apply andb_false_r).
    rewrite Hx in H. lia. }
  split; [exact Hcount|]. unfold hasStreamingResponse.
  rewrite !existsb_filter_length. fold (streamingCount (messages st)).
  fold (streamingCount (messages (stopStreaming st))). rewrite <- Hcount.
  split; [reflexivity|].
  now destruct (streamingCount (messages (stopStreaming st))).
Qed.

Lemma stop_takes_one_message_out_of_streaming_witness :
  let st := run (initial "c") [ sampleDeliver "response-start" "r0";
                                sampleDeliver "response-start" "r1" ] in
  streamingCount (messages st) = 2 /\
  streamingCount (messages (stopStreaming st)) = 1 /\
  hasStreamingResponse (stopStreaming st) = true.
Proof.
  intros st.
  assert (Hm : exists active, messages st !! 1 = Some active /\
                              Msg.responseId active = Id "r1")
    by (eexists; split; reflexivity).
  destruct Hm as (active & Hactive & Hrid).
  destruct (stop_takes_one_message_out_of_streaming st 1 active)
    as (Hc & _ & Hh).
  - split; [exact Hactive|]. vm_compute in Hactive. injection Hactive as <-.
    split; [reflexivity|]. intros k y Hk Hy.
    apply lookup_lt_Some in Hy. simpl in Hy. lia.
  - now rewrite Hrid.
  - vm_compute. apply NoDup_cons. split; [|apply NoDup_singleton].
    rewrite list_elem_of_singleton. discriminate.
  - assert (H2 : streamingCount (messages st) = 2) by reflexivity.
    split; [exact H2|]. split; [lia | rewrite Hh, H2; reflexivity].
Defined.

(** ** Events without a case in the switch *)

Lemma applyEvent_unhandled ev t :
  isHandledType (Ev.type ev) = false -> applyEvent ev t = t.
Proof.
  unfold isHandledType, applyEvent. intros H.
  repeat (apply orb_false_elim in H as [H ?]).
  now repeat match goal with
             | Hx : String.eqb _ _ = false |- _ => rewrite Hx; clear Hx
             end.
Qed.

(** An event whose type has no case in the switch (response-celebration,
    or any other string that passed the dispatcher) changes no field of any
    message, yet is not without effect: for a response that has no message
    it still pushes a new, unfinished agent message, and for a finished
    message it still runs the release of queued responses. *)
Theorem unhandled_event_still_creates_and_releases :
  forall (e : Env) (ev : AgentStreamEvent) (st : State),
    Ev.conversationId ev = conversationId st ->
    isHandledType (Ev.type ev) = false ->
    messages (handleStreamEvent e ev st) =
      match findIndex (matchesResponse ev) (messages st) with
      | Some _ =>
          if targetFinished ev (messages st)
          then releaseQueuedAgentResponses (messages st)
          else messages st
      | None => messages st ++ [insertion e (messages st) ev]
      end /\
    Msg.finished (insertion e (messages st) ev) = Some false /\
    Msg.status (insertion e (messages st) ev)
      = Some (orElse (Ev.status ev) thinking).
Proof.
  intros e ev st Hc Hty. split.
  - rewrite handleStreamEvent_active by exact Hc. simpl.
    unfold deliver, targetFinished.
    destruct (ensureAgentMessage_cases e (messages st) ev)
      as [(k & Hf & ->)|[Hf ->]]; rewrite Hf.
    + destruct (findIndex_Some _ _ _ Hf) as (t & Ht & _). rewrite Ht.
      rewrite (applyEvent_unhandled ev t Hty), (list_insert_id _ _ _ Ht).
      reflexivity.
    + rewrite lookup_app_r, Nat.sub_diag by lia. simpl.
      rewrite (applyEvent_unhandled ev _ Hty). simpl.
      apply list_insert_id.
      rewrite lookup_app_r, Nat.sub_diag by lia. reflexivity.
  - split; [reflexivity|]. unfold insertion. simpl.
    unfold isHandledType in Hty.
    repeat (apply orb_false_elim in Hty as [Hty ?]).
    match goal with
    | Hx : String.eqb (Ev.type ev) "response-token" = false |- _ => now rewrite Hx
    end.
Qed.

Lemma unhandled_event_still_creates_and_releases_witness :
  length (messages (handleStreamEvent sampleEnv
                      (sampleEvent "response-celebration" "r7")
                      (initial "c"))) = 1 /\
  messages (handleStreamEvent sampleEnv (sampleEvent "response-celebration" "r0")
                              backlogState)
  = releaseQueuedAgentResponses (messages backlogState).
Proof.
  destruct (unhandled_event_still_creates_and_releases
              sampleEnv (sampleEvent "response-celebration" "r7") (initial "c")
              eq_refl eq_refl) as (H1 & _).
  destruct (unhandled_event_still_creates_and_releases
              sampleEnv (sampleEvent "response-celebration" "r0") backlogState
              eq_refl eq_refl) as (H2 & _).
  split; [now rewrite H1 | exact H2].
Defined.

(** ** A response that has nothing to wait for *)

(** When every agent message is finished (or there is none, as right after
    a new chat), the message created by the first event of a new response is
    shown at once, and still is once that event has been handled. *)
Theorem new_response_is_shown_when_none_is_pending :
  forall (e : Env) (ev : AgentStreamEvent) (st : State),
    Ev.conversationId ev = conversationId st ->
    findIndex (matchesResponse ev) (messages st) = None ->
    allAgentsFinished (messages st) ->
    Msg.visible (insertion e (messages st) ev) = true /\
    exists m,
      messages (handleStreamEvent e ev st) !! length (messages st) = Some m /\
      Msg.responseId m = Ev.responseId ev /\
      Msg.visible m = true.
Proof.
  intros e ev st Hc Hnew Hall.
  assert (Hvis : Msg.visible (insertion e (messages st) ev) = true).
  { simpl. apply negb_true_iff.
    destruct (existsb isUnfinishedAgent (messages st)) eqn:Hex; [|reflexivity].
    destruct (existsb_true_exists _ _ Hex) as (i & x & Hx & Hunf).
    unfold isUnfinishedAgent in Hunf. apply andb_prop in Hunf as [Ha Hf].
    rewrite (Hall i x Hx Ha) in Hf. discriminate. }
  split; [exact Hvis|].
  rewrite handleStreamEvent_active by exact Hc. simpl.
  unfold deliver, ensureAgentMessage. rewrite Hnew.
  rewrite lookup_app_r, Nat.sub_diag by lia. simpl.
  set (ins := insertion e (messages st) ev).
  set (next := applyEvent ev ins).
  assert (Hl : <[length (messages st) := next]> (messages st ++ [ins])
                 !! length (messages st) = Some next).
  { apply list_lookup_insert_eq. rewrite length_app. simpl. lia. }
  assert (Hnext : Msg.responseId next = Ev.responseId ev /\ Msg.visible next = true).
  { unfold next. now rewrite applyEvent_responseId, applyEvent_visible. }
  destruct (truthy (Msg.finished next)).
  - destruct (evolves_release _ _ _ Hl) as (m' & Hm' & _ & _ & Hr & _ & _ & Hv).
    exists m'. split; [exact Hm'|]. destruct Hnext as [Hr' Hv'].
    split; [congruence | now apply Hv].
  - exists next. split; [exact Hl | exact Hnext].
Qed.

Lemma new_response_is_shown_when_none_is_pending_witness :
  exists m,
    messages (handleStreamEvent sampleEnv (sampleEvent "response-start" "r1")
                                (startNewChat "c" stalledState)) !! 0 = Some m /\
    Msg.visible m = true.
Proof.
  destruct (new_response_is_shown_when_none_is_pending
              sampleEnv (sampleEvent "response-start" "r1")
              (startNewChat "c" stalledState) eq_refl eq_refl)
    as (_ & m & Hm & _ & Hv).
  - intros i x Hx. destruct i; discriminate.
  - exists m. split; [exact Hm | exact Hv].
Defined.

(** ** The stop operation in reachable states *)

Section Keys.
Context {K : Type} (f : ConversationMessage -> K).
Hypothesis f_visible : forall m v, f (withVisible m v) = f m.
Hypothesis f_applyEvent : forall ev t, f (applyEvent ev t) = f t.
Hypothesis f_stopped : forall m, f (withStopped m) = f m.

Lemma keys_insert (ms : list ConversationMessage) (k : nat) m m' :
  ms !! k = Some m -> f m' = f m -> f <$> <[k := m']> ms = f <$> ms.
Proof.
  intros Hk Hkey. rewrite list_fmap_insert, Hkey.
  apply list_insert_id. now rewrite list_lookup_fmap, Hk.
Qed.

Lemma keys_release (ms : list ConversationMessage) :
  f <$> releaseQueuedAgentResponses ms = f <$> ms.
Proof.
  destruct (release_cases ms) as [->|(h & t & _ & Ht & _ & _ & _ & ->)];
    [reflexivity|].
  now apply (keys_insert ms h t).
Qed.

Lemma keys_deliver e ev (ms : list ConversationMessage) :
  f <$> deliver e ev ms =
  (f <$> ms) ++
  match findIndex (matchesResponse ev) ms with
  | Some _ => []
  | None => [f (insertion e ms ev)]
  end.
Proof.
  unfold deliver.
  destruct (ensureAgentMessage_cases e ms ev) as [(k & Hf & ->)|[Hf ->]];
    rewrite Hf.
  - rewrite app_nil_r. destruct (ms !! k) as [t|] eqn:Ht; [|reflexivity].
    destruct (truthy _); [rewrite keys_release|];
      apply (keys_insert ms k t _ Ht), f_applyEvent.
  - rewrite lookup_app_r, Nat.sub_diag by lia. simpl.
    set (ins := insertion e ms ev).
    assert (H : f <$> <[length ms := applyEvent ev ins]> (ms ++ [ins])
                = (f <$> ms) ++ [f ins]).
    { rewrite (keys_insert _ _ ins).
      - now rewrite fmap_app.
      - rewrite lookup_app_r, Nat.sub_diag by lia. reflexivity.
      - apply f_applyEvent. }
    destruct (truthy _); [now rewrite keys_release | exact H].
Qed.

Lemma keys_stopStreaming st :
  f <$> messages (stopStreaming st) = f <$> messages st.
Proof.
  unfold stopStreaming.
  destruct (find isStreamingAgent (rev (messages st))) as [active|];
    [|reflexivity].
  destruct (negb _); [reflexivity|]. simpl.
  destruct (findIndex _ (messages st)) as [index|]; [|reflexivity].
  destruct (messages st !! index) as [m|] eqn:Hm; [|reflexivity].
  rewrite keys_release. now apply (keys_insert _ _ m).
Qed.

End Keys.

Lemma idKey_applyEvent ev t : idKey (applyEvent ev t) = idKey t.
Proof. unfold idKey. now rewrite applyEvent_id, agentKey_applyEvent. Qed.

Lemma keysFresh_weaken R U U' ks :
  (forall u, u ∈ U' -> u ∈ U) -> keysFresh R U ks -> keysFresh R U' ks.
Proof.
  intros Hsub [Hnd Hall]. split; [exact Hnd|].
  eapply Forall_impl; [exact Hall|]. simpl.
  intros k [H|[H1 H2]]; [now left | right]. split; [exact H1|].
  intros Hin. now apply H2, Hsub.
Qed.

(** A message that takes a fresh identifier from the generator. *)
Lemma keysFresh_snoc_uuid R u U ks o :
  keysFresh R (u :: U) ks -> u ∉ R -> u ∉ U ->
  keysFresh R U (ks ++ [(u, o)]).
Proof.
  intros [Hnd Hall] HuR HuU. split.
  - rewrite fmap_app. apply NoDup_app. split; [exact Hnd|].
    split; [|apply NoDup_singleton].
    intros x Hx Hxu. apply list_elem_of_singleton in Hxu. simpl in Hxu. subst x.
    apply list_elem_of_fmap in Hx as (k & Hk1 & Hk).
    rewrite Forall_forall in Hall. destruct (Hall k Hk) as [[_ Hr]|[_ Hn]].
    + apply HuR. now rewrite Hk1.
    + apply Hn. rewrite <- Hk1. apply list_elem_of_here.
  - apply Forall_app. split.
    + eapply Forall_impl; [exact Hall|]. simpl.
      intros k [H|[H1 H2]]; [now left | right]. split; [exact H1|].
      intros Hin. apply H2. now apply list_elem_of_further.
    + apply Forall_cons. split; [right; auto | apply Forall_nil_2].
Qed.

(** An agent message that takes the response id of its first event. *)
Lemma keysFresh_snoc_response R U ks s :
  keysFresh R U ks -> s ∈ R ->
  (forall k, k ∈ ks -> snd k <> Some (Id s)) ->
  keysFresh R U (ks ++ [(s, Some (Id s))]).
Proof.
  intros [Hnd Hall] HsR Hnew. split.
  - rewrite fmap_app. apply NoDup_app. split; [exact Hnd|].
    split; [|apply NoDup_singleton].
    intros x Hx Hxs. apply list_elem_of_singleton in Hxs. simpl in Hxs. subst x.
    apply list_elem_of_fmap in Hx as (k & Hk1 & Hk).
    rewrite Forall_forall in Hall. destruct (Hall k Hk) as [[Hkey _]|[Hn _]].
    + apply (Hnew k Hk). now rewrite Hkey, <- Hk1.
    + apply Hn. now rewrite <- Hk1.
  - apply Forall_app. split; [exact Hall|].
    apply Forall_cons. split; [left; auto | apply Forall_nil_2].
Qed.

Lemma keysFresh_step R a rest st :
  (forall s, s ∈ actionResponseIds [a] -> s ∈ R) ->
  NoDup (actionUuids (a :: rest)) ->
  (forall u, u ∈ actionUuids [a] -> u ∉ R) ->
  keysFresh R (actionUuids (a :: rest)) (idKey <$> messages st) ->
  keysFresh R (actionUuids rest) (idKey <$> messages (step st a)).
Proof.
  intros HR Hnd HU Hk.
  assert (Hweak : keysFresh R (actionUuids rest) (idKey <$> messages st)).
  { apply (keysFresh_weaken R (actionUuids (a :: rest))); [|exact Hk].
    intros u Hu. change (a :: rest) with ([a] ++ rest).
    unfold actionUuids. rewrite flat_map_app. apply elem_of_app. now right. }
  destruct a as [e ev|e rawValue| |c]; simpl.
  - destruct (String.eqb_spec (Ev.conversationId ev) (conversationId st)) as [Hc|Hc];
      [|now rewrite handleStreamEvent_other].
    rewrite handleStreamEvent_active by exact Hc. simpl.
    rewrite (keys_deliver idKey) by (reflexivity || apply idKey_applyEvent).
    destruct (findIndex (matchesResponse ev) (messages st)) eqn:Hf;
      [now rewrite app_nil_r|].
    unfold idKey at 2. unfold agentKey. simpl.
    destruct (Ev.responseId ev) as [| |s] eqn:Hrid; simpl.
    + simpl in Hnd, HU, Hk. rewrite Hrid in Hnd, HU, Hk. simpl in Hnd, HU, Hk.
      apply NoDup_cons in Hnd as [Hnot _].
      apply keysFresh_snoc_uuid; [exact Hk | | exact Hnot].
      apply HU. apply list_elem_of_here.
    + simpl in Hnd, HU, Hk. rewrite Hrid in Hnd, HU, Hk. simpl in Hnd, HU, Hk.
      apply NoDup_cons in Hnd as [Hnot _].
      apply keysFresh_snoc_uuid; [exact Hk | | exact Hnot].
      apply HU. apply list_elem_of_here.
    + apply keysFresh_snoc_response; [exact Hweak | |].
      * apply HR. simpl. rewrite Hrid. apply list_elem_of_here.
      * intros k Hin Hkey. apply list_elem_of_fmap in Hin as (m & -> & Hm).
        apply list_elem_of_lookup in Hm as (i & Hm).
        assert (Hmatch : matchesResponse ev m = true).
        { apply agentKey_matches. now rewrite Hrid. }
        rewrite (findIndex_None _ _ Hf i m Hm) in Hmatch. discriminate.
  - unfold submitPrompt. simpl in Hnd, HU, Hk.
    destruct (String.eqb rawValue ""); [exact Hweak|]. simpl in *.
    rewrite fmap_app. simpl. apply NoDup_cons in Hnd as [Hnot _].
    apply keysFresh_snoc_uuid; [exact Hk | | exact Hnot].
    apply HU. apply list_elem_of_here.
  - rewrite (keys_stopStreaming idKey) by (reflexivity || apply idKey_applyEvent).
    exact Hweak.
  - split; [apply NoDup_nil_2 | apply Forall_nil_2].
Qed.

Lemma keysFresh_run R actions :
  forall st,
    (forall s, s ∈ actionResponseIds actions -> s ∈ R) ->
    NoDup (actionUuids actions) ->
    (forall u, u ∈ actionUuids actions -> u ∉ R) ->
    keysFresh R (actionUuids actions) (idKey <$> messages st) ->
    keysFresh R [] (idKey <$> messages (run st actions)).
Proof.
  induction actions as [|a rest IH]; intros st HR Hnd HU Hk; [exact Hk|].
  rewrite run_cons.
  assert (Hsplit : forall (g : list Action -> list string),
            (g = actionUuids \/ g = actionResponseIds) ->
            forall x, x ∈ g (a :: rest) <-> x ∈ g [a] \/ x ∈ g rest).
  { intros g [-> | ->] x; change (a :: rest) with ([a] ++ rest);
      unfold actionUuids, actionResponseIds;
      rewrite flat_map_app; apply elem_of_app. }
  apply IH.
  - intros s Hs. apply HR. apply (Hsplit actionResponseIds); auto.
  - change (a :: rest) with ([a] ++ rest) in Hnd. unfold actionUuids in Hnd.
    rewrite flat_map_app in Hnd. now apply NoDup_app in Hnd as (_ & _ & Hnd).
  - intros u Hu. apply HU. apply (Hsplit actionUuids); auto.
  - apply keysFresh_step; [| exact Hnd | | exact Hk].
    + intros s Hs. apply HR. apply (Hsplit actionResponseIds); auto.
    + intros u Hu. apply HU. apply (Hsplit actionUuids); auto.
Qed.

(** With a generator that returns fresh identifiers, message ids are
    unique in every state reached from construction. *)
Lemma reachable_ids_unique cid actions :
  uuidsFresh actions ->
  NoDup (Msg.id <$> messages (run (initial cid) actions)).
Proof.
  intros [Hnd Hdisj].
  destruct (keysFresh_run (actionResponseIds actions) actions (initial cid))
    as [H _]; auto.
  - split; [apply NoDup_nil_2 | apply Forall_nil_2].
  - rewrite <- list_fmap_compose in H. exact H.
Qed.

(** C10. In every state reached from construction with a generator of
    fresh identifiers: when the last streaming agent message has a
    (non-empty) response id, [stopStreaming] at once sends the stop command,
    marks that message ['stopped'], not streaming and finished, and runs the
    release of queued responses on the result, so that the earliest hidden
    agent message is shown exactly when the agent message nearest before it
    is then absent or finished.  When no agent message is streaming, or the
    last streaming one has no response id, the state is unchanged and
    nothing is sent. *)
Theorem C10_stop_streaming_marks_latest :
  forall (cid : string) (actions : list Action),
    uuidsFresh actions ->
    let st := run (initial cid) actions in
    (forall i active,
        latestStreaming (messages st) i active ->
        truthyString (Msg.responseId active) = true ->
        let marked := <[i := withStopped active]> (messages st) in
        conversationId (stopStreaming st) = conversationId st /\
        sent (stopStreaming st) =
          sent st ++ [StopResponse (conversationId st) (Msg.responseId active)
                                   (Some "user-request")] /\
        messages (stopStreaming st) = releaseQueuedAgentResponses marked /\
        (exists m, messages (stopStreaming st) !! i = Some m /\
                   Msg.status m = Some stopped /\
                   Msg.isStreaming m = Some false /\
                   Msg.finished m = Some true /\
                   Msg.id m = Msg.id active) /\
        ((forall j y, marked !! j = Some y -> isHiddenAgent y = false) ->
         messages (stopStreaming st) = marked) /\
        (forall h t o,
            earliestHidden marked h t -> precedingAgent marked h o ->
            messages (stopStreaming st) =
            if match o with None => true | Some p => truthy (Msg.finished p) end
            then <[h := withVisible t true]> marked else marked)) /\
    ((forall j y, messages st !! j = Some y -> isStreamingAgent y = false) ->
     stopStreaming st = st) /\
    (forall i active,
        latestStreaming (messages st) i active ->
        truthyString (Msg.responseId active) = false ->
        stopStreaming st = st).
Proof.
  intros cid actions Hfresh st.
  pose proof (reachable_ids_unique cid actions Hfresh) as Hnd. fold st in Hnd.
  split; [|split].
  - intros i active Hlatest Hrid marked.
    pose proof (stopStreaming_latest st i active Hlatest Hrid Hnd) as Hmsgs.
    fold marked in Hmsgs.
    pose proof (latestStreaming_find _ _ _ Hlatest) as Hfind.
    destruct Hlatest as (Hi & _ & _).
    split; [apply stopStreaming_conversationId|]. split.
    { unfold stopStreaming. now rewrite Hfind, Hrid. }
    split; [exact Hmsgs|]. split; [|split].
    + assert (Hl : marked !! i = Some (withStopped active)).
      { apply list_lookup_insert_eq. now apply lookup_lt_Some in Hi. }
      destruct (release_lookup _ _ _ Hl) as (v & Hv).
      exists (withVisible (withStopped active) v). now rewrite Hmsgs, Hv.
    + intros Hnone. rewrite Hmsgs. now apply release_no_hidden.
    + intros h t o He Hp. rewrite Hmsgs. now apply release_earliest.
  - intros Hnone. unfold stopStreaming.
    now rewrite (find_rev_none_intro _ _ Hnone).
  - intros i active Hlatest Hrid. unfold stopStreaming.
    now rewrite (latestStreaming_find _ _ _ Hlatest), Hrid.
Qed.

(** ["r0"] is shown and streaming, ["r1"] was queued behind it and has
    ended: stopping marks ["r0"] and the release shows ["r1"]. *)
Lemma C10_witness :
  let st := run (initial "c") [ sampleDeliver "response-start" "r0";
                                sampleDeliver "response-start" "r1";
                                sampleDeliver "response-end" "r1" ] in
  (Msg.visible <$> messages st !! 1) = Some false /\
  (Msg.status <$> messages (stopStreaming st) !! 0) = Some (Some stopped) /\
  (Msg.visible <$> messages (stopStreaming st) !! 1) = Some true /\
  sent (stopStreaming st) =
    sent st ++ [StopResponse "c" (Id "r0") (Some "user-request")].
Proof.
  intros st.
  assert (Hfresh : uuidsFresh [ sampleDeliver "response-start" "r0";
                                sampleDeliver "response-start" "r1";
                                sampleDeliver "response-end" "r1" ]).
  { split; [apply NoDup_nil_2|]. intros u Hu. inversion Hu. }
  destruct (C10_stop_streaming_marks_latest "c" _ Hfresh) as (Hstop & _ & _).
  fold st in Hstop.
  assert (Hm : exists active, messages st !! 0 = Some active /\
                              Msg.responseId active = Id "r0")
    by (eexists; split; reflexivity).
  destruct Hm as (active & Hactive & Hrid).
  assert (Hh : exists t, messages st !! 1 = Some t /\ Msg.visible t = false)
    by (eexists; split; reflexivity).
  destruct Hh as (t & Ht & Hvis).
  destruct (Hstop 0 active) as (_ & Hsent & _ & _ & _ & Hrel).
  - split; [exact Hactive|]. vm_compute in Hactive. injection Hactive as <-.
    split; [reflexivity|]. intros k y Hk Hy.
    destruct k as [|[|[|k]]]; try lia; vm_compute in Hy; try discriminate.
    injection Hy as <-. reflexivity.
  - now rewrite Hrid.
  - split; [reflexivity|].
    rewrite (Hrel 1 t (Some (withStopped active))).
    + vm_compute in Hactive, Ht. injection Hactive as <-. injection Ht as <-.
      split; [reflexivity|]. split; [reflexivity|].
      rewrite Hsent. reflexivity.
    + vm_compute in Hactive, Ht. injection Hactive as <-. injection Ht as <-.
      split; [reflexivity|]. split; [reflexivity|].
      intros j y Hj Hy. assert (j = 0) as -> by lia.
      vm_compute in Hy. injection Hy as <-. reflexivity.
    + vm_compute in Hactive. injection Hactive as <-.
      exists 0. split; [lia|]. split; [reflexivity|]. split; [reflexivity|].
      intros k y Hk1 Hk2. lia.
Defined.
